(** * Chat widget of the L'Oreal product advisor: message rendering pipeline

    A shallow embedding of [script.js]: the escaper, the inline and block
    formatters, and the transcript bookkeeping of the submit handler.  The
    repository holds several revisions of the script; this is the one with
    the markdown formatter, the [prompt] for the name and the worker proxy.
    The others have the same escaper, the same two filters and the same
    [callOpenAI] up to the prefix of its error message.

    JavaScript strings are sequences of UTF-16 code units; a code unit is a
    natural number here, so that every character class of the source
    ([\s], [.], [[^*]], the no-break space) is written out exactly. *)

From Stdlib Require Import String Ascii DecimalString.
From Stdlib Require Import List NArith Bool Arith Lia.
Import ListNotations.

(** ** Code units and strings *)

Definition char := N.
Definition str := list char.

(** [lit] turns an ASCII literal of this file into the code units of the
    same JavaScript literal. *)
Definition lit (s : string) : str :=
  List.map N_of_ascii (list_ascii_of_string s).

Definition chr_is (a : char) : char -> bool := N.eqb a.

Fixpoint str_eqb (a b : str) : bool :=
  match a, b with
  | [], [] => true
  | x :: a', y :: b' => N.eqb x y && str_eqb a' b'
  | _, _ => false
  end.

Definition LT : char := 60%N.        (* < *)
Definition GT : char := 62%N.        (* > *)
Definition AMP : char := 38%N.       (* & *)
Definition NBSP : char := 160%N.     (* U+00A0 *)
Definition DQUOTE : char := 34%N.    (* double quote *)
Definition SQUOTE : char := 39%N.    (* single quote *)
Definition STAR : char := 42%N.      (* asterisk *)
Definition UNDERSCORE : char := 95%N.
Definition HASH : char := 35%N.
Definition LF : char := 10%N.
Definition CR : char := 13%N.

(** ** The escaper

    [escapeHtml] creates a [p] element, assigns the text to [textContent]
    and reads [innerHTML].  The element then has one text child (none for
    the empty string), and [innerHTML] is the HTML fragment serialisation
    of the children.  The HTML Standard ("Serialising HTML fragments",
    "Escaping a string", outside attribute mode) serialises a text node by
    replacing [&] by [&amp;], U+00A0 by [&nbsp;], [<] by [&lt;] and [>] by
    [&gt;]; every other code unit is copied. *)

Module Dom.

(** The only nodes [escapeHtml] ever builds: a [p] element whose
    children are text nodes. *)
Inductive node : Type :=
| Text (data : str).

Record element : Type := { tagName : str; childNodes : list node }.

Definition createElement (tag : str) : element :=
  {| tagName := tag; childNodes := [] |}.

(** [el.textContent = text]: all children are replaced by one text node,
    or by nothing when the text is empty. *)
Definition setTextContent (el : element) (text : str) : element :=
  {| tagName := tagName el;
     childNodes := match text with [] => [] | _ => [Text text] end |}.

Definition escapeChar (c : char) : str :=
  if chr_is AMP c then lit "&amp;"
  else if chr_is NBSP c then lit "&nbsp;"
  else if chr_is LT c then lit "&lt;"
  else if chr_is GT c then lit "&gt;"
  else [c].

Definition escapeString (s : str) : str := flat_map escapeChar s.

Definition serialize (n : node) : str :=
  match n with
  | Text data => escapeString data
  end.

(** [el.innerHTML]: the serialisation of the children, in order. *)
Definition innerHTML (el : element) : str :=
  flat_map serialize (childNodes el).

End Dom.

Definition escapeHtml (text : str) : str :=
  let p := Dom.createElement (lit "p") in
  let p := Dom.setTextContent p text in
  Dom.innerHTML p.

(** The bodies of the character references the escaper writes. *)
Definition referenceBodies : list str :=
  [lit "amp;"; lit "nbsp;"; lit "lt;"; lit "gt;"].

(** [String.prototype.startsWith] *)
Fixpoint startsWith (pre s : str) : bool :=
  match pre with
  | [] => true
  | p :: pre' =>
      match s with
      | c :: s' => N.eqb p c && startsWith pre' s'
      | [] => false
      end
  end.

(** The consumer side of the escaper's contract: the text a markup
    consumer shows for a string that holds no tag, that is the string
    with the four character references decoded.  [decodeFrom s skip]
    decodes [s] after dropping its first [skip] code units. *)
Fixpoint decodeFrom (s : str) (skip : nat) : str :=
  match s with
  | [] => []
  | c :: s' =>
      match skip with
      | S n => decodeFrom s' n
      | O =>
          if startsWith (lit "&amp;") s then AMP :: decodeFrom s' 4
          else if startsWith (lit "&nbsp;") s then NBSP :: decodeFrom s' 5
          else if startsWith (lit "&lt;") s then LT :: decodeFrom s' 3
          else if startsWith (lit "&gt;") s then GT :: decodeFrom s' 3
          else c :: decodeFrom s' 0
      end
  end.

Definition decodeEntities (s : str) : str := decodeFrom s 0.

(** ** Character classes of the regular expressions

    [\s] is WhiteSpace or LineTerminator of ECMAScript; [.] (no [s] flag)
    is every code unit but the four line terminators. *)

Definition isLineTerminator (c : char) : bool :=
  (chr_is 10 c || chr_is 13 c || chr_is 8232 c || chr_is 8233 c)%N.

Definition isSpace (c : char) : bool :=
  ((9 <=? c) && (c <=? 13)            (* TAB LF VT FF CR *)
   || chr_is 32 c || chr_is 160 c || chr_is 5760 c
   || (8192 <=? c) && (c <=? 8202)    (* U+2000 .. U+200A *)
   || chr_is 8232 c || chr_is 8233 c || chr_is 8239 c || chr_is 8287 c
   || chr_is 12288 c || chr_is 65279 c)%N.

Definition isDot (c : char) : bool := negb (isLineTerminator c).
Definition isHash : char -> bool := chr_is HASH.
Definition isStar : char -> bool := chr_is STAR.
(** [[-*+]] *)
Definition isBulletMark (c : char) : bool :=
  (chr_is 45 c || chr_is 42 c || chr_is 43 c)%N.

(** [String.prototype.trim] strips WhiteSpace and LineTerminator code
    units, the same set as [\s], from both ends. *)
Fixpoint dropSpaces (s : str) : str :=
  match s with
  | c :: s' => if isSpace c then dropSpaces s' else s
  | [] => []
  end.

Definition trim (s : str) : str := rev (dropSpaces (rev (dropSpaces s))).

(** ** A backtracking matcher for the regular expressions of the source

    A regular expression is a sequence of items.  Every quantifier of the
    source applies to one character class and every lookaround tests one
    code unit, so these are the items.  The matcher is the backtracking
    matcher of ECMAScript: a greedy quantifier tries the longest run
    first, a lazy one the shortest, and each tries the rest of the
    expression before giving up a choice.  The position in the subject is
    the code unit before it ([None] at the start) and the remaining
    input. *)

Inductive item : Type :=
| Chr (p : char -> bool)                (* one code unit of the class *)
| Rep (greedy : bool) (lo : nat) (hi : option nat) (p : char -> bool)
                                        (* p{lo,hi}, lazy when not greedy *)
| Open                                  (* opening parenthesis of a group *)
| Close                                 (* closing parenthesis of a group *)
| Bol                                   (* ^ *)
| Eol                                   (* $ *)
| NotBehind (p : char -> bool)          (* (?<!p) *)
| NotAhead (p : char -> bool).          (* (?!p) *)

Definition regex := list item.

(** The marks are the remaining inputs at each parenthesis passed so far,
    latest first; a successful match returns them with the input left
    after the match. *)
Definition marks := list str.
Definition matchResult := (marks * str)%type.
Definition matcher := option char -> str -> marks -> option matchResult.

Definition canRepeat (hi : option nat) : bool :=
  match hi with Some O => false | _ => true end.

Fixpoint rep (greedy : bool) (p : char -> bool) (k : matcher)
    (lo : nat) (hi : option nat)
    (prev : option char) (s : str) (ms : marks) {struct s}
    : option matchResult :=
  match s with
  | [] => if Nat.eqb lo 0 then k prev [] ms else None
  | c :: s' =>
      if greedy then
        match (if p c && canRepeat hi
               then rep greedy p k (pred lo) (option_map pred hi)
                        (Some c) s' ms
               else None) with
        | Some r => Some r
        | None => if Nat.eqb lo 0 then k prev s ms else None
        end
      else
        match (if Nat.eqb lo 0 then k prev s ms else None) with
        | Some r => Some r
        | None =>
            if p c && canRepeat hi
            then rep greedy p k (pred lo) (option_map pred hi)
                     (Some c) s' ms
            else None
        end
  end.

Definition step (it : item) (k : matcher) : matcher :=
  match it with
  | Chr p => fun prev s ms =>
      match s with
      | c :: s' => if p c then k (Some c) s' ms else None
      | [] => None
      end
  | Rep greedy lo hi p => rep greedy p k lo hi
  | Open => fun prev s ms => k prev s (s :: ms)
  | Close => fun prev s ms => k prev s (s :: ms)
  | Bol => fun prev s ms =>
      match prev with None => k prev s ms | Some _ => None end
  | Eol => fun prev s ms =>
      match s with [] => k prev s ms | _ :: _ => None end
  | NotBehind p => fun prev s ms =>
      match prev with
      | Some c => if p c then None else k prev s ms
      | None => k prev s ms
      end
  | NotAhead p => fun prev s ms =>
      match s with
      | c :: _ => if p c then None else k prev s ms
      | [] => k prev s ms
      end
  end.

Definition accept : matcher := fun _ s ms => Some (ms, s).

(** [run r prev s ms]: match [r] at this position. *)
Fixpoint run (r : regex) : matcher :=
  match r with
  | [] => accept
  | it :: r' => step it (run r')
  end.

(** The text between two marks: the part of [from] that was consumed
    when [to] was left. *)
Definition between (from to : str) : str :=
  firstn (length from - length to) from.

(** Capture group [n] (from 1) of a result: the marks are latest first,
    so group [n] lies between marks [2n-2] and [2n-1] counted from the
    oldest. *)
Definition group (n : nat) (ms : marks) : str :=
  let old := rev ms in
  between (nth (2 * n - 2) old []) (nth (2 * n - 1) old []).

(** [RegExp.prototype.exec] without the [g] flag, as [match] and [test]
    use it: the first position, from the left, where the expression
    matches. *)
Fixpoint search (r : regex) (prev : option char) (s : str)
    : option matchResult :=
  match run r prev s [] with
  | Some res => Some res
  | None =>
      match s with
      | [] => None
      | c :: s' => search r (Some c) s'
      end
  end.

Definition test (r : regex) (s : str) : bool :=
  match search r None s with Some _ => true | None => false end.

(** [s.replace(r, f)] with the [g] flag: matches are looked for from the
    left, each match is replaced by [f] of its marks and the search goes
    on after it; an empty match moves on by one code unit.  [skip] counts
    the code units of the current match still to be passed over. *)
Fixpoint replaceFrom (r : regex) (f : marks -> str)
    (prev : option char) (s : str) (skip : nat) : str :=
  match s with
  | [] =>
      match skip with
      | O => match run r prev [] [] with
             | Some (ms, _) => f ms
             | None => []
             end
      | S _ => []
      end
  | c :: s' =>
      match skip with
      | S n => replaceFrom r f (Some c) s' n
      | O =>
          match run r prev s [] with
          | Some (ms, rest) =>
              match length s - length rest with
              | O => f ms ++ c :: replaceFrom r f (Some c) s' 0
              | S n => f ms ++ replaceFrom r f (Some c) s' n
              end
          | None => c :: replaceFrom r f (Some c) s' 0
          end
      end
  end.

Definition replaceAll (r : regex) (f : marks -> str) (s : str) : str :=
  replaceFrom r f None s 0.

(** [s.split(r)] for an expression that matches no empty string, as the
    one of the source: the pieces between the matches of [r]; the result
    is never empty, its head is the piece being read. *)
Definition addToPiece (c : char) (pieces : list str) : list str :=
  match pieces with
  | p :: ps => (c :: p) :: ps
  | [] => [[c]]
  end.

Fixpoint splitFrom (r : regex) (prev : option char) (s : str) (skip : nat)
    : list str :=
  match s with
  | [] => [[]]
  | c :: s' =>
      match skip with
      | S n => splitFrom r (Some c) s' n
      | O =>
          match run r prev s [] with
          | Some (_, rest) =>
              match length s - length rest with
              | O => addToPiece c (splitFrom r (Some c) s' 0)
              | S n => [] :: splitFrom r (Some c) s' n
              end
          | None => addToPiece c (splitFrom r (Some c) s' 0)
          end
      end
  end.

Definition split (r : regex) (s : str) : list str := splitFrom r None s 0.

(** The code unit before the position reached after reading [pre]. *)
Definition prevAfter (prev : option char) (pre : str) : option char :=
  match rev pre with
  | c :: _ => Some c
  | [] => prev
  end.

(** ** The regular expressions of the source

    Each is quoted with blanks between its tokens. *)

(** [/ \* \* ( .+? ) \* \* /g] *)
Definition reBold : regex :=
  [Chr isStar; Chr isStar; Open; Rep false 1 None isDot; Close;
   Chr isStar; Chr isStar].

(** The two italic expressions differ in the marker only:
    [/ (?<! m ) m (?! m ) ( [^m]+? ) m (?! m ) /g]. *)
Definition reItalic (m : char) : regex :=
  [NotBehind (chr_is m); Chr (chr_is m); NotAhead (chr_is m);
   Open; Rep false 1 None (fun c => negb (chr_is m c)); Close;
   Chr (chr_is m); NotAhead (chr_is m)].

(** [/ (?<! \* ) \* (?! \* ) ( [^*]+? ) \* (?! \* ) /g] *)
Definition reItalicStar : regex := reItalic STAR.

(** [/ (?<! _ ) _ (?! _ ) ( [^_]+? ) _ (?! _ ) /g] *)
Definition reItalicUnderscore : regex := reItalic UNDERSCORE.

(** [/ ^ ( #{1,6} ) \s+ ( .+ ) $ /] *)
Definition reHeading : regex :=
  [Bol; Open; Rep true 1 (Some 6) isHash; Close; Rep true 1 None isSpace;
   Open; Rep true 1 None isDot; Close; Eol].

(** [/ ^ \s* ( [-*+] ) \s+ ( .* ) $ /] *)
Definition reBullet : regex :=
  [Bol; Rep true 0 None isSpace; Open; Chr isBulletMark; Close;
   Rep true 1 None isSpace; Open; Rep true 0 None isDot; Close; Eol].

(** [/ ^ #{1,6} \s+ /] *)
Definition reHeadingStart : regex :=
  [Bol; Rep true 1 (Some 6) isHash; Rep true 1 None isSpace].

(** [/ ^ \s* [-*+] \s+ /] *)
Definition reBulletStart : regex :=
  [Bol; Rep true 0 None isSpace; Chr isBulletMark; Rep true 1 None isSpace].

(** [/ \r? \n /] *)
Definition reNewline : regex :=
  [Rep true 0 (Some 1) (chr_is CR); Chr (chr_is LF)].

(** ** The inline formatter *)

Definition strong (ms : marks) : str :=
  lit "<strong>" ++ group 1 ms ++ lit "</strong>".

Definition em (ms : marks) : str :=
  lit "<em>" ++ group 1 ms ++ lit "</em>".

Definition applyInlineFormatting (text : str) : str :=
  let text := replaceAll reBold strong text in
  let text := replaceAll reItalicStar em text in
  let text := replaceAll reItalicUnderscore em text in
  text.

(** ** The block formatter *)

Definition decimal (n : N) : str := lit (NilZero.string_of_uint (N.to_uint n)).

Definition closeList (inList : bool) : str :=
  if inList then lit "</ul>" else [].

Definition openList (inList : bool) : str :=
  if inList then [] else lit "<ul>".

Definition isEmpty (s : str) : bool :=
  match s with [] => true | _ :: _ => false end.

(** The break decision after a regular line that has a next line; [line]
    is the line after inline formatting, as in the source. *)
Definition lineBreak (line nextLine : str) : str :=
  let nextIsHeading := test reHeadingStart nextLine in
  let nextIsBullet := test reBulletStart nextLine in
  let currentIsEmpty := isEmpty (trim line) in
  let nextIsEmpty := isEmpty (trim nextLine) in
  if negb nextIsHeading && negb nextIsBullet
     && negb currentIsEmpty && negb nextIsEmpty
  then lit "<br>"
  else if currentIsEmpty || nextIsEmpty then lit "<br>"
  else [].

(** The loop over the lines: [inList] is the flag of the source, the
    result is what the loop and the closing test after it add to
    [formatted]. *)
Fixpoint formatLines (inList : bool) (lines : list str) : str :=
  match lines with
  | [] => closeList inList
  | line :: rest =>
      match search reHeading None line with
      | Some (ms, _) =>
          let level := decimal (N.of_nat (length (group 1 ms))) in
          let headingText := applyInlineFormatting (group 2 ms) in
          closeList inList
          ++ lit "<h" ++ level ++ lit ">" ++ headingText
          ++ lit "</h" ++ level ++ lit ">"
          ++ formatLines false rest
      | None =>
          match search reBullet None line with
          | Some (ms, _) =>
              let item := applyInlineFormatting (group 2 ms) in
              openList inList
              ++ lit "<li>" ++ item ++ lit "</li>"
              ++ formatLines true rest
          | None =>
              let line := applyInlineFormatting line in
              closeList inList
              ++ line
              ++ match rest with
                 | nextLine :: _ => lineBreak line nextLine
                 | [] => []
                 end
              ++ formatLines false rest
          end
      end
  end.

Definition formatMessage (text : str) : str :=
  if isEmpty text then []
  else
    let safe := escapeHtml text in
    let lines := split reNewline safe in
    formatLines false lines.

(** ** The transcript

    An entry of [chatHistory] is an object with a [role], a [content] and,
    for the seeded greeting only, [initial: true]; a missing [initial] is
    [false] here, since the source only tests [m.initial === true]. *)

Inductive Role : Type := user | assistant.

Definition role_eqb (a b : Role) : bool :=
  match a, b with
  | user, user | assistant, assistant => true
  | _, _ => false
  end.

Record entry : Type := { role : Role; content : str; initial : bool }.

(** The state the handlers share: [chatHistory], [userProfile.name]
    ([None] for [null]) and [hasAskedName]. *)
Record session : Type := {
  chatHistory : list entry;
  userName : option str;
  hasAskedName : bool
}.

Definition push (e : entry) (s : session) : session :=
  {| chatHistory := chatHistory s ++ [e];
     userName := userName s;
     hasAskedName := hasAskedName s |}.

Definition filterHistory (keep : entry -> bool) (s : session) : session :=
  {| chatHistory := filter keep (chatHistory s);
     userName := userName s;
     hasAskedName := hasAskedName s |}.

Definition greetingText : str :=
  [55357; 56395]%N
  ++ lit " Hello! I'm the L'Or" ++ [233%N] ++ lit "al Product Advisor "
  ++ [8212%N] ++ lit " I can help with L'Or" ++ [233%N]
  ++ lit "al products, skincare and haircare routines, and recommendations. What would you like to know?".

Definition greeting : entry :=
  {| role := assistant; content := greetingText; initial := true |}.

(** The seeding at load time. *)
Definition seed (s : session) : session :=
  match chatHistory s with
  | [] => push greeting s
  | _ :: _ => s
  end.

Definition initialSession : session :=
  seed {| chatHistory := []; userName := None; hasAskedName := false |}.

(** *** Errors

    A handler either returns or throws an error with a message; in both
    cases the session has the changes made so far. *)
Inductive outcome : Type :=
| Returned (s : session)
| Thrown (message : str) (s : session).

Definition action := session -> outcome.

Definition andThen (a b : action) : action :=
  fun s => match a s with
           | Returned s' => b s'
           | Thrown m s' => Thrown m s'
           end.

Definition throw (message : str) : action := fun s => Thrown message s.

Definition tryCatch (body : action) (handler : str -> action) : action :=
  fun s => match body s with
           | Returned s' => Returned s'
           | Thrown m s' => handler m s'
           end.

Definition pushEntry (e : entry) : action := fun s => Returned (push e s).

(** *** The network call

    What [fetch] and the reading of the response can give: an error
    thrown by [fetch], [res.text()] or [res.json()]; a response with
    [res.ok] false, its status and body text; a parsed body [data] other
    than [null], whose [choices?.[0]?.message?.content] is a string or
    is missing ([undefined] or [null]); or the parsed body [null], on
    which the first access [data.choices] is not guarded and throws a
    TypeError, with the message the engine gives it. *)
Inductive fetchResult : Type :=
| Rejected (message : str)
| Failure (status : N) (text : str)
| Success (content : option str)
| NullBody (message : str).

Definition fallbackReply : str := lit "Sorry, I did not receive a reply.".

Definition assistantEntry (content : str) : entry :=
  {| role := assistant; content := content; initial := false |}.

(** [callOpenAI].  The request it builds from the transcript and the
    rendering after each push read the session without changing it, and
    the [finally] block only enables the input controls, which are not
    part of the session; they are left out. *)
Definition callOpenAI (net : fetchResult) : action :=
  tryCatch
    (match net with
     | Rejected message => throw message
     | Failure status text =>
         throw (lit "Worker proxy error: " ++ decimal status
                ++ lit " " ++ text)
     | Success data =>
         let assistantContent :=
           match data with
           | Some reply => reply
           | None => fallbackReply
           end in
         pushEntry (assistantEntry assistantContent)
     | NullBody message => throw message
     end)
    (fun message => pushEntry (assistantEntry (lit "Error: " ++ message))).

(** *** The submit handler *)

(** [prompt] gives the text typed, [null] when dismissed, or throws when
    the browser blocks it. *)
Inductive promptAnswer : Type :=
| Typed (value : str)
| Dismissed
| Blocked.

(** [toLowerCase], on the letters A to Z.  The handler only compares the
    first six code units of the result with a literal made of a slash,
    four ASCII letters and a space, and no other code unit lowercases to
    one of these. *)
Definition toLowerCase (s : str) : str :=
  map (fun c => if (65 <=? c)%N && (c <=? 90)%N then (c + 32)%N else c) s.

Definition isNameCommand (text : str) : bool :=
  startsWith (lit "/name ") (toLowerCase text).

Definition acknowledgment (name : str) : entry :=
  assistantEntry (lit "Nice to meet you, " ++ name
                  ++ lit ". I'll remember that for this session.").

Definition setName (name : str) (s : session) : session :=
  {| chatHistory := chatHistory s;
     userName := Some name;
     hasAskedName := hasAskedName s |}.

Definition setAsked (s : session) : session :=
  {| chatHistory := chatHistory s;
     userName := userName s;
     hasAskedName := true |}.

(** [!userProfile.name] *)
Definition noName (s : session) : bool :=
  match userName s with
  | None => true
  | Some n => isEmpty n
  end.

(** The one-time name prompt. *)
Definition askName (answer : promptAnswer) (s : session) : session :=
  if noName s && negb (hasAskedName s) then
    let s :=
      match answer with
      | Typed namePrompt =>
          if negb (isEmpty namePrompt) && negb (isEmpty (trim namePrompt))
          then push (acknowledgment (trim namePrompt))
                    (setName (trim namePrompt) s)
          else s
      | Dismissed => s
      | Blocked => s
      end in
    setAsked s
  else s.

(** The filter that evicts the seeded greeting. *)
Definition isSeedGreeting (m : entry) : bool :=
  role_eqb (role m) assistant && initial m.

Definition removeSeedGreeting : session -> session :=
  filterHistory (fun m => negb (isSeedGreeting m)).

Definition userEntry (text : str) : entry :=
  {| role := user; content := text; initial := false |}.

(** The typing indicator. *)
Definition placeholderText : str := lit "Thinking...".

Definition isPlaceholder (m : entry) : bool :=
  role_eqb (role m) assistant && str_eqb (content m) placeholderText.

Definition appendPlaceholder : session -> session :=
  push (assistantEntry placeholderText).

Definition removeTransient : session -> session :=
  filterHistory (fun m => negb (isPlaceholder m)).

(** How far the handler went: it returned on an empty text, it handled
    the name command, or it appended the user's message. *)
Inductive submission : Type := Ignored | NameCommand | Message.

(** The handler up to the rendering of the user's message. *)
Definition submitUser (value : str) (answer : promptAnswer) (s : session)
    : submission * session :=
  let text := trim value in
  if isEmpty text then (Ignored, s)
  else if isNameCommand text then
    let name := trim (skipn 6 text) in
    if negb (isEmpty name)
    then (NameCommand, push (acknowledgment name) (setName name s))
    else (NameCommand, s)
  else
    let s := askName answer s in
    let s := removeSeedGreeting s in
    let s := push (userEntry text) s in
    (Message, s).

(** The whole handler. *)
Definition chatFormSubmit (value : str) (answer : promptAnswer)
    (net : fetchResult) : action :=
  fun s =>
    match submitUser value answer s with
    | (Message, s) =>
        let s := appendPlaceholder s in
        let s := removeTransient s in
        callOpenAI net s
    | (_, s) => Returned s
    end.

Definition sessionOf (o : outcome) : session :=
  match o with
  | Returned s => s
  | Thrown _ s => s
  end.

(** One event of a session: a submission with what the prompt and the
    network would answer. *)
Record event : Type := {
  typed : str;
  promptGives : promptAnswer;
  networkGives : fetchResult
}.

Definition handle (s : session) (e : event) : session :=
  sessionOf (chatFormSubmit (typed e) (promptGives e) (networkGives e) s).

Definition runEvents (s : session) (es : list event) : session :=
  fold_left handle es s.

(** Observations on a transcript, for the statements below. *)
Definition hasSeedGreeting (s : session) : bool :=
  existsb isSeedGreeting (chatHistory s).

Definition userEntries (s : session) : list entry :=
  filter (fun m => role_eqb (role m) user) (chatHistory s).

(** The entry [callOpenAI] appends for each result of the network call. *)
Definition replyContent (net : fetchResult) : str :=
  match net with
  | Success (Some reply) => reply
  | Success None => lit "Sorry, I did not receive a reply."
  | Failure status text =>
      lit "Error: Worker proxy error: " ++ decimal status ++ lit " " ++ text
  | Rejected message => lit "Error: " ++ message
  | NullBody message => lit "Error: " ++ message
  end.

(** A session the widget reaches: the user sent [hi] and the reply was
    the very text of the typing indicator. *)
Definition sessionAfterThinkingReply : session :=
  runEvents initialSession
    [{| typed := lit "hi"; promptGives := Dismissed;
        networkGives := Success (Some (lit "Thinking...")) |}].

(** ** Rendering

    [renderChat] empties the chat window and appends one block per entry:
    a wrapper with a class name, the author label unless it is hidden,
    and the body.  Scrolling and [saveState] read the session without
    changing it. *)

Record block : Type := {
  className : str;
  meta : option str;      (* the text of the label, [None] when left out *)
  body : str              (* the [innerHTML] given to the body *)
}.

Definition roleName (r : Role) : str :=
  match r with
  | user => lit "user"
  | assistant => lit "assistant"
  end.

(** [Array.prototype.findIndex], from index [idx] on; [None] stands for
    the -1 of the source, which no index equals. *)
Fixpoint findIndexFrom (p : entry -> bool) (idx : nat) (h : list entry)
    : option nat :=
  match h with
  | [] => None
  | m :: h' => if p m then Some idx else findIndexFrom p (S idx) h'
  end.

Definition index_is (i : option nat) (idx : nat) : bool :=
  match i with
  | Some j => Nat.eqb idx j
  | None => false
  end.

Definition isUser (m : entry) : bool := role_eqb (role m) user.
Definition isAssistant (m : entry) : bool := role_eqb (role m) assistant.

Definition renderEntry (hasUserMessage : bool)
    (firstAssistantIndex : option nat) (msg : entry) (idx : nat) : block :=
  let author := if isUser msg then lit "You" else lit "Advisor" in
  let hideMeta :=
    isAssistant msg && index_is firstAssistantIndex idx
    && negb hasUserMessage in
  {| className :=
       lit "chat-message " ++ roleName (role msg)
       ++ (if initial msg then lit " initial" else []);
     meta := if hideMeta then None else Some author;
     body := formatMessage (content msg) |}.

(** [chatHistory.forEach((msg, idx) => ...)], from index [idx] on. *)
Fixpoint renderFrom (hasUserMessage : bool)
    (firstAssistantIndex : option nat) (idx : nat) (h : list entry)
    : list block :=
  match h with
  | [] => []
  | msg :: h' =>
      renderEntry hasUserMessage firstAssistantIndex msg idx
      :: renderFrom hasUserMessage firstAssistantIndex (S idx) h'
  end.

Definition renderChat (s : session) : list block :=
  let hasUserMessage := existsb isUser (chatHistory s) in
  let firstAssistantIndex := findIndexFrom isAssistant 0 (chatHistory s) in
  renderFrom hasUserMessage firstAssistantIndex 0 (chatHistory s).

Definition unlabelled (b : block) : bool :=
  match meta b with None => true | Some _ => false end.

Definition greetingBlock : block :=
  {| className := lit "chat-message assistant initial";
     meta := None;
     body := formatMessage greetingText |}.

(** ** The request

    The [messages] array [callOpenAI] sends: the system prompt, a note
    with the name when one is known, and the transcript mapped to its
    roles and contents. *)

Record message : Type := { msgRole : str; msgContent : str }.

Definition brand : str := lit "L'Or" ++ [233%N] ++ lit "al".

Definition SYSTEM_PROMPT : str :=
  lit "You are an official " ++ brand
  ++ lit " product assistant. ONLY answer questions related to " ++ brand
  ++ lit " products, skincare and haircare routines, and product recommendations. If a user asks about non-"
  ++ brand
  ++ lit " products or unrelated topics, politely explain you only provide "
  ++ brand ++ lit "-specific information and offer comparable " ++ brand
  ++ lit " alternatives when possible. Ask clarifying questions about skin type, hair type, concerns, sensitivities, and budget when needed. Do not provide medical, legal, or diagnostic advice "
  ++ [8212%N]
  ++ lit " direct users to a professional in those cases. Keep answers friendly, factual, concise, and include product names and recommended usage steps when relevant.".

Definition systemMessage (content : str) : message :=
  {| msgRole := lit "system"; msgContent := content |}.

Definition profileNote (name : str) : str :=
  lit "User profile: name=" ++ name
  ++ lit ". Remember this for future responses and personalize when appropriate.".

Definition toMessage (m : entry) : message :=
  {| msgRole := roleName (role m); msgContent := content m |}.

(** The note pushed when [userProfile.name] is set and not empty. *)
Definition profileMessages (s : session) : list message :=
  match userName s with
  | Some name =>
      if isEmpty name then [] else [systemMessage (profileNote name)]
  | None => []
  end.

Definition messages (s : session) : list message :=
  [systemMessage SYSTEM_PROMPT]
  ++ profileMessages s
  ++ map toMessage (chatHistory s).

(** The request a submission sends, if it sends one: [callOpenAI] runs
    on the session left by the removal of the typing indicator. *)
Definition requestOf (value : str) (answer : promptAnswer) (s : session)
    : option (list message) :=
  match submitUser value answer s with
  | (Message, s) =>
      let s := appendPlaceholder s in
      let s := removeTransient s in
      Some (messages s)
  | (_, _) => None
  end.

(** The name question is settled when a name is known or the question
    was asked. *)
Definition nameSettled (s : session) : bool :=
  negb (noName s && negb (hasAskedName s)).

(** Code units a plain line of text does not hold or start with. *)
Definition isSpecial (c : char) : bool :=
  chr_is AMP c || chr_is NBSP c || chr_is LT c || chr_is GT c.

Definition firstNotSpace (s : str) : Prop :=
  forall c, hd_error s = Some c -> isSpace c = false.

Definition lastNotSpace (s : str) : Prop :=
  forall c, hd_error (rev s) = Some c -> isSpace c = false.

(** [lines.join(sep)] *)
Fixpoint joinWith (sep : str) (lines : list str) : str :=
  match lines with
  | [] => []
  | l :: rest =>
      match rest with
      | [] => l
      | _ :: _ => l ++ sep ++ joinWith sep rest
      end
  end.

(** A line of plain prose: no character the escaper replaces, no line
    terminator, at most one asterisk and one underscore, and either
    blank or starting with a code unit that is no white space, no [#]
    and no bullet mark. *)
Definition startsPlain (l : str) : bool :=
  match l with
  | c :: _ => negb (isSpace c) && negb (isHash c) && negb (isBulletMark c)
  | [] => false
  end.

Definition isPlainLine (l : str) : bool :=
  negb (existsb isSpecial l) && negb (existsb isLineTerminator l)
  && (count_occ N.eq_dec l STAR <=? 1)
  && (count_occ N.eq_dec l UNDERSCORE <=? 1)
  && (forallb isSpace l || startsPlain l).

(** A text as [trim] leaves it when it leaves something. *)
Definition trimmedText (t : str) : Prop :=
  t <> [] /\ firstNotSpace t /\ lastNotSpace t.

(** The two shapes of a transcript: the greeting on top of assistant
    entries only, or no greeting and at least one user entry. *)
Definition greetingOnTop (s : session) : Prop :=
  exists rest,
    chatHistory s = greeting :: rest
    /\ forallb isAssistant rest = true
    /\ existsb isSeedGreeting rest = false.

Definition greetingGone (s : session) : Prop :=
  hasSeedGreeting s = false /\ existsb isUser (chatHistory s) = true.

(** The texts a session stores from the user are trimmed and not
    empty: the content of each user entry and the name, if known. *)
Definition tidy (s : session) : Prop :=
  (forall m, In m (chatHistory s) -> isUser m = true ->
             trimmedText (content m))
  /\ (forall n, userName s = Some n -> trimmedText n).

(** The tags the two formatters write, and what it means that every
    [<] of a text starts one of them. *)
Definition formatterTags : list str :=
  [lit "<strong>"; lit "</strong>"; lit "<em>"; lit "</em>"; lit "<br>";
   lit "<ul>"; lit "</ul>"; lit "<li>"; lit "</li>";
   lit "<h1>"; lit "<h2>"; lit "<h3>"; lit "<h4>"; lit "<h5>"; lit "<h6>";
   lit "</h1>"; lit "</h2>"; lit "</h3>"; lit "</h4>"; lit "</h5>";
   lit "</h6>"].

Definition tagged (s : str) : Prop :=
  forall pre post,
    s = pre ++ LT :: post ->
    exists t post', In t formatterTags /\ LT :: post = t ++ post'.

(** * Properties *)

(** ** Strings *)

Lemma str_eqb_eq (a b : str) : str_eqb a b = true <-> a = b.
Proof.
  revert b. induction a as [|x a IH]; intros [|y b]; simpl;
    try (split; [discriminate|congruence]); [tauto|].
  rewrite andb_true_iff, N.eqb_eq, IH. split.
  - intros [-> ->]. reflexivity.
  - intros H. injection H as -> ->. auto.
Qed.

Lemma chr_is_true (a c : char) : chr_is a c = true <-> c = a.
Proof. unfold chr_is. rewrite N.eqb_eq. split; congruence. Qed.

Lemma chr_is_false (a c : char) : chr_is a c = false <-> c <> a.
Proof. unfold chr_is. rewrite N.eqb_neq. split; congruence. Qed.

(** ** The escaper *)

Lemma escapeHtml_flat_map (text : str) :
  escapeHtml text = flat_map Dom.escapeChar text.
Proof.
  unfold escapeHtml, Dom.innerHTML, Dom.setTextContent. simpl.
  destruct text as [|c t]; [reflexivity|].
  simpl. rewrite app_nil_r. reflexivity.
Qed.

Lemma escapeHtml_app (a b : str) :
  escapeHtml (a ++ b) = escapeHtml a ++ escapeHtml b.
Proof. rewrite !escapeHtml_flat_map. apply flat_map_app. Qed.

Lemma escapeHtml_cons (c : char) (t : str) :
  escapeHtml (c :: t) = Dom.escapeChar c ++ escapeHtml t.
Proof. rewrite !escapeHtml_flat_map. reflexivity. Qed.

(** The five shapes of the escape of one code unit. *)
Lemma escapeChar_cases (c : char) :
  (c = AMP /\ Dom.escapeChar c = lit "&amp;")
  \/ (c = NBSP /\ Dom.escapeChar c = lit "&nbsp;")
  \/ (c = LT /\ Dom.escapeChar c = lit "&lt;")
  \/ (c = GT /\ Dom.escapeChar c = lit "&gt;")
  \/ (c <> AMP /\ c <> NBSP /\ c <> LT /\ c <> GT /\ Dom.escapeChar c = [c]).
Proof.
  unfold Dom.escapeChar.
  destruct (chr_is AMP c) eqn:Ea; [apply chr_is_true in Ea; auto|].
  destruct (chr_is NBSP c) eqn:En; [apply chr_is_true in En; auto|].
  destruct (chr_is LT c) eqn:El; [apply chr_is_true in El; auto 6|].
  destruct (chr_is GT c) eqn:Eg; [apply chr_is_true in Eg; auto 6|].
  apply chr_is_false in Ea, En, El, Eg. auto 10.
Qed.

Lemma escapeChar_other (c : char) :
  c <> AMP -> c <> NBSP -> c <> LT -> c <> GT -> Dom.escapeChar c = [c].
Proof.
  intros Ha Hn Hl Hg.
  destruct (escapeChar_cases c) as [[E _]|[[E _]|[[E _]|[[E _]|H]]]];
    try contradiction.
  apply H.
Qed.

Lemma escapeHtml_no_angle (text : str) :
  ~ In LT (escapeHtml text) /\ ~ In GT (escapeHtml text).
Proof.
  induction text as [|c t [IHl IHg]]; [split; intros []|].
  rewrite escapeHtml_cons.
  split; intro H; apply in_app_or in H; destruct H as [H|H]; auto;
    destruct (escapeChar_cases c) as [[_ E]|[[_ E]|[[_ E]|[[_ E]|E]]]];
    try (rewrite E in H; vm_compute in H; intuition discriminate);
    destruct E as (_ & _ & El & Eg & E); rewrite E in H;
    destruct H as [H|[]]; congruence.
Qed.

Lemma amp_at_head (body pre post : str) :
  ~ In AMP body -> AMP :: body = pre ++ AMP :: post ->
  pre = [] /\ post = body.
Proof.
  intros Hb H. destruct pre as [|x pre]; simpl in H.
  - injection H as H. auto.
  - injection H as _ H. exfalso. apply Hb. rewrite H.
    apply in_or_app. right. left. reflexivity.
Qed.

Lemma escapeChar_amp (c : char) (pre post : str) :
  Dom.escapeChar c = pre ++ AMP :: post ->
  pre = [] /\ In post referenceBodies.
Proof.
  intro H.
  destruct (escapeChar_cases c) as [[_ E]|[[_ E]|[[_ E]|[[_ E]|E]]]].
  5: { destruct E as (Ha & _ & _ & _ & E). rewrite E in H.
       destruct pre as [|x [|y pre]]; simpl in H; try discriminate.
       injection H as H _. congruence. }
  all: rewrite E in H.
  - change (lit "&amp;") with (AMP :: lit "amp;") in H.
    apply amp_at_head in H as [-> ->]; [|vm_compute; intuition discriminate].
    split; [reflexivity|]. left. reflexivity.
  - change (lit "&nbsp;") with (AMP :: lit "nbsp;") in H.
    apply amp_at_head in H as [-> ->]; [|vm_compute; intuition discriminate].
    split; [reflexivity|]. right. left. reflexivity.
  - change (lit "&lt;") with (AMP :: lit "lt;") in H.
    apply amp_at_head in H as [-> ->]; [|vm_compute; intuition discriminate].
    split; [reflexivity|]. do 2 right. left. reflexivity.
  - change (lit "&gt;") with (AMP :: lit "gt;") in H.
    apply amp_at_head in H as [-> ->]; [|vm_compute; intuition discriminate].
    split; [reflexivity|]. do 3 right. left. reflexivity.
Qed.

Lemma escapeHtml_amp (text pre post : str) :
  escapeHtml text = pre ++ AMP :: post ->
  exists body rest, In body referenceBodies /\ post = body ++ rest.
Proof.
  revert pre. induction text as [|c t IH]; intros pre H.
  - destruct pre; discriminate.
  - rewrite escapeHtml_cons in H.
    apply app_eq_app in H as [l [[H1 H2]|[H1 H2]]].
    + destruct l as [|x l]; simpl in H2.
      * apply (IH []). symmetry. exact H2.
      * injection H2 as <- H2.
        apply escapeChar_amp in H1 as [_ H1].
        exists l, (escapeHtml t). auto.
    + apply (IH l). exact H2.
Qed.

Lemma startsWith_head_neq (p c : char) (pre s : str) :
  c <> p -> startsWith (p :: pre) (c :: s) = false.
Proof.
  intro H. simpl. apply andb_false_iff. left.
  apply N.eqb_neq. congruence.
Qed.

Lemma decodeFrom_other (c : char) (r : str) :
  c <> AMP -> decodeFrom (c :: r) 0 = c :: decodeFrom r 0.
Proof.
  intro H.
  change (decodeFrom (c :: r) 0) with
    (if startsWith (AMP :: lit "amp;") (c :: r)
     then AMP :: decodeFrom r 4
     else if startsWith (AMP :: lit "nbsp;") (c :: r)
     then NBSP :: decodeFrom r 5
     else if startsWith (AMP :: lit "lt;") (c :: r)
     then LT :: decodeFrom r 3
     else if startsWith (AMP :: lit "gt;") (c :: r)
     then GT :: decodeFrom r 3
     else c :: decodeFrom r 0).
  rewrite !startsWith_head_neq by assumption. reflexivity.
Qed.

Lemma decode_escapeChar (c : char) (r : str) :
  decodeFrom (Dom.escapeChar c ++ r) 0 = c :: decodeFrom r 0.
Proof.
  destruct (escapeChar_cases c) as [[-> E]|[[-> E]|[[-> E]|[[-> E]|E]]]];
    try (rewrite E; reflexivity).
  destruct E as (Ha & _ & _ & _ & E). rewrite E.
  apply decodeFrom_other. exact Ha.
Qed.

Lemma decode_escapeHtml (text : str) :
  decodeEntities (escapeHtml text) = text.
Proof.
  unfold decodeEntities. induction text as [|c t IH]; [reflexivity|].
  rewrite escapeHtml_cons, decode_escapeChar, IH. reflexivity.
Qed.

Lemma escapeHtml_single (c : char) : escapeHtml [c] = Dom.escapeChar c.
Proof. rewrite escapeHtml_cons. apply app_nil_r. Qed.

Lemma escapeHtml_other (c : char) :
  c <> LT -> c <> GT -> c <> AMP -> c <> NBSP -> escapeHtml [c] = [c].
Proof.
  intros. rewrite escapeHtml_single. apply escapeChar_other; assumption.
Qed.

(** C1, as amended: the output of the escaper holds no [<] and no [>],
    and each [&] in it starts one of the four character references it
    writes; the escaper works code unit by code unit, it replaces [<],
    [>], [&] and also the no-break space U+00A0 by their references and
    copies every other code unit, newlines and all of Unicode included;
    decoding the references of the output gives the input back. *)
Theorem escapeHtml_neutralizes (text : str) :
  (~ In LT (escapeHtml text) /\ ~ In GT (escapeHtml text))
  /\ (forall pre post, escapeHtml text = pre ++ AMP :: post ->
      exists body rest, In body referenceBodies /\ post = body ++ rest)
  /\ (forall a b, escapeHtml (a ++ b) = escapeHtml a ++ escapeHtml b)
  /\ (escapeHtml [LT] = lit "&lt;" /\ escapeHtml [GT] = lit "&gt;"
      /\ escapeHtml [AMP] = lit "&amp;" /\ escapeHtml [NBSP] = lit "&nbsp;")
  /\ (forall c, c <> LT -> c <> GT -> c <> AMP -> c <> NBSP ->
      escapeHtml [c] = [c])
  /\ decodeEntities (escapeHtml text) = text.
Proof.
  split; [apply escapeHtml_no_angle|].
  split; [apply escapeHtml_amp|].
  split; [apply escapeHtml_app|].
  split; [repeat split|].
  split; [apply escapeHtml_other|].
  apply decode_escapeHtml.
Qed.

Lemma escapeHtml_neutralizes_witness :
  escapeHtml [LF] = [LF]
  /\ decodeEntities (escapeHtml (lit "<b> & co")) = lit "<b> & co".
Proof.
  split.
  - apply (escapeHtml_neutralizes []); discriminate.
  - apply (escapeHtml_neutralizes (lit "<b> & co")).
Defined.

(** C1 as stated fails: the no-break space is none of the three
    structural characters and does not pass through unchanged. *)
Lemma escapeHtml_nbsp_not_copied :
  ~ (forall c, c <> LT -> c <> GT -> c <> AMP -> escapeHtml [c] = [c]).
Proof.
  intro H. specialize (H NBSP). discriminate H; discriminate.
Qed.

Lemma count_escapeChar (q c : char) :
  q = DQUOTE \/ q = SQUOTE ->
  count_occ N.eq_dec (Dom.escapeChar c) q = count_occ N.eq_dec [c] q.
Proof.
  intros Hq.
  destruct (escapeChar_cases c) as [[-> E]|[[-> E]|[[-> E]|[[-> E]|E]]]];
    try (rewrite E; destruct Hq as [-> | ->]; reflexivity).
  destruct E as (_ & _ & _ & _ & ->). reflexivity.
Qed.

Lemma count_escapeHtml (q : char) (text : str) :
  q = DQUOTE \/ q = SQUOTE ->
  count_occ N.eq_dec (escapeHtml text) q = count_occ N.eq_dec text q.
Proof.
  intro Hq. induction text as [|c t IH]; [reflexivity|].
  rewrite escapeHtml_cons. change (c :: t) with ([c] ++ t).
  rewrite !count_occ_app.
  apply (f_equal2 Nat.add); [apply count_escapeChar, Hq | exact IH].
Qed.

Lemma escapeHtml_replaced (c : char) :
  escapeHtml [c] <> [c] <-> c = LT \/ c = GT \/ c = AMP \/ c = NBSP.
Proof.
  rewrite escapeHtml_single. split.
  - intro H.
    destruct (escapeChar_cases c) as [[E _]|[[E _]|[[E _]|[[E _]|E]]]];
      auto.
    destruct E as (_ & _ & _ & _ & E). contradiction.
  - intros [-> |[-> |[-> | ->]]]; discriminate.
Qed.

(** C10, as amended: the escaper leaves both quote characters as they
    are; the code units it replaces are [<], [>], [&] and the no-break
    space U+00A0, no other; so a quote of the input is a raw quote of the
    output, as many times as it occurs. *)
Theorem escapeHtml_keeps_quotes (text : str) (q : char) :
  q = DQUOTE \/ q = SQUOTE ->
  escapeHtml [q] = [q]
  /\ count_occ N.eq_dec (escapeHtml text) q = count_occ N.eq_dec text q
  /\ (In q text -> In q (escapeHtml text))
  /\ (forall c, escapeHtml [c] <> [c] <->
                c = LT \/ c = GT \/ c = AMP \/ c = NBSP).
Proof.
  intro Hq. split; [|split; [|split]].
  - destruct Hq as [-> | ->]; reflexivity.
  - apply count_escapeHtml, Hq.
  - rewrite !(count_occ_In N.eq_dec), (count_escapeHtml q text Hq). auto.
  - apply escapeHtml_replaced.
Qed.

Lemma escapeHtml_keeps_quotes_witness :
  In DQUOTE (escapeHtml (lit "say <" ++ [DQUOTE] ++ lit "hi" ++ [DQUOTE])).
Proof.
  apply (escapeHtml_keeps_quotes
           (lit "say <" ++ [DQUOTE] ++ lit "hi" ++ [DQUOTE]) DQUOTE).
  - left. reflexivity.
  - vm_compute. tauto.
Defined.

(** C10 as stated fails: [<], [>] and [&] are not the only code units the
    escaper replaces. *)
Lemma escapeHtml_replaces_a_fourth :
  ~ (forall c, escapeHtml [c] <> [c] -> c = LT \/ c = GT \/ c = AMP).
Proof.
  intro H. destruct (H NBSP) as [E|[E|E]]; discriminate.
Qed.

(** ** The matcher *)

Lemma prevAfter_cons (prev : option char) (c : char) (pre : str) :
  prevAfter prev (c :: pre) = prevAfter (Some c) pre.
Proof.
  unfold prevAfter. simpl. destruct (rev pre); reflexivity.
Qed.

(** A quantifier that succeeds has read a run of its class, at least as
    long as its lower bound, and the rest of the expression succeeded
    from there. *)
Lemma rep_sound (g : bool) (p : char -> bool) (k : matcher)
    (lo : nat) (hi : option nat) (prev : option char) (s : str)
    (ms : marks) (r : matchResult) :
  rep g p k lo hi prev s ms = Some r ->
  exists pre post,
    s = pre ++ post /\ forallb p pre = true /\ lo <= length pre
    /\ k (prevAfter prev pre) post ms = Some r.
Proof.
  revert lo hi prev. induction s as [|c s IH]; intros lo hi prev H.
  - simpl in H. destruct (Nat.eqb_spec lo 0) as [->|]; [|discriminate].
    exists [], []. auto.
  - assert (Hstop : (if Nat.eqb lo 0 then k prev (c :: s) ms else None)
                    = Some r ->
                    exists pre post,
                      c :: s = pre ++ post /\ forallb p pre = true
                      /\ lo <= length pre
                      /\ k (prevAfter prev pre) post ms = Some r).
    { intro E. destruct (Nat.eqb_spec lo 0) as [->|]; [|discriminate].
      exists [], (c :: s). auto. }
    assert (Hmore : (if p c && canRepeat hi
                     then rep g p k (pred lo) (option_map pred hi)
                              (Some c) s ms
                     else None) = Some r ->
                    exists pre post,
                      c :: s = pre ++ post /\ forallb p pre = true
                      /\ lo <= length pre
                      /\ k (prevAfter prev pre) post ms = Some r).
    { intro E. destruct (p c) eqn:Ep; [|discriminate].
      destruct (canRepeat hi); [|discriminate]. simpl in E.
      apply IH in E as (pre & post & -> & Hp & Hlo & Hk).
      exists (c :: pre), post. rewrite prevAfter_cons. simpl.
      rewrite Ep, Hp. repeat split; auto. lia. }
    simpl in H. destruct g.
    + destruct (if p c && canRepeat hi then _ else None) eqn:E.
      * injection H as <-. auto.
      * auto.
    + destruct (if Nat.eqb lo 0 then _ else None) eqn:E.
      * injection H as <-. auto.
      * auto.
Qed.

(** A quantifier fails when the rest of the expression fails at every
    later position. *)
Lemma rep_none (g : bool) (p : char -> bool) (k : matcher)
    (lo : nat) (hi : option nat) (prev : option char) (s : str)
    (ms : marks) :
  (forall pre post prev', s = pre ++ post -> k prev' post ms = None) ->
  rep g p k lo hi prev s ms = None.
Proof.
  revert lo hi prev. induction s as [|c s IH]; intros lo hi prev H.
  - simpl. destruct (Nat.eqb lo 0); [|reflexivity].
    apply (H [] []). reflexivity.
  - assert (Hstop : (if Nat.eqb lo 0 then k prev (c :: s) ms else None)
                    = None).
    { destruct (Nat.eqb lo 0); [|reflexivity]. apply (H []). reflexivity. }
    assert (Hmore : (if p c && canRepeat hi
                     then rep g p k (pred lo) (option_map pred hi)
                              (Some c) s ms
                     else None) = None).
    { destruct (p c && canRepeat hi); [|reflexivity].
      apply IH. intros pre post prev' ->. apply (H (c :: pre)).
      reflexivity. }
    simpl. destruct g; rewrite Hstop, Hmore; reflexivity.
Qed.

(** A quantifier that must read something fails where its class does
    not start. *)
Lemma rep_first (g : bool) (p : char -> bool) (k : matcher)
    (lo : nat) (hi : option nat) (prev : option char) (s : str)
    (ms : marks) :
  0 < lo ->
  match s with c :: _ => p c = false | [] => True end ->
  rep g p k lo hi prev s ms = None.
Proof.
  intros Hlo Hs. destruct lo as [|lo]; [lia|].
  destruct s as [|c s]; [reflexivity|].
  simpl. rewrite Hs. destruct g; reflexivity.
Qed.

(** What the success of each item says. *)
Lemma step_Chr (p : char -> bool) (k : matcher) prev s ms r :
  step (Chr p) k prev s ms = Some r ->
  exists c s', s = c :: s' /\ p c = true /\ k (Some c) s' ms = Some r.
Proof.
  simpl. destruct s as [|c s']; [discriminate|].
  destruct (p c) eqn:E; [|discriminate]. eauto.
Qed.

Lemma step_NotBehind (p : char -> bool) (k : matcher) prev s ms r :
  step (NotBehind p) k prev s ms = Some r ->
  (forall c, prev = Some c -> p c = false) /\ k prev s ms = Some r.
Proof.
  simpl. destruct prev as [c|].
  - destruct (p c) eqn:E; [discriminate|]. intro H. split; [|exact H].
    intros c' [= <-]. exact E.
  - intro H. split; [discriminate|exact H].
Qed.

Lemma step_NotAhead (p : char -> bool) (k : matcher) prev s ms r :
  step (NotAhead p) k prev s ms = Some r ->
  (forall c, hd_error s = Some c -> p c = false) /\ k prev s ms = Some r.
Proof.
  simpl. destruct s as [|c s'].
  - intro H. split; [discriminate|exact H].
  - destruct (p c) eqn:E; [discriminate|]. intro H. split; [|exact H].
    intros c' [= <-]. exact E.
Qed.

(** The italic expression matches a marker, a non-empty run without the
    marker and a second marker; the first marker has no marker before
    it, the second none after it. *)
Lemma run_reItalic (m : char) prev s ms ms' rest :
  run (reItalic m) prev s ms = Some (ms', rest) ->
  prev <> Some m
  /\ exists x,
       s = m :: x ++ m :: rest /\ x <> [] /\ ~ In m x
       /\ hd_error rest <> Some m
       /\ ms' = (m :: rest) :: (x ++ m :: rest) :: ms.
Proof.
  intro H. unfold reItalic in H. cbn [run] in H.
  apply step_NotBehind in H as [Hb H].
  apply step_Chr in H as (c & s1 & -> & Hc & H).
  apply chr_is_true in Hc. subst c.
  apply step_NotAhead in H as [Ha H].
  change (step Open ?k ?p ?s ?m) with (k p s (s :: m)) in H.
  apply rep_sound in H as (x & post & -> & Hx & Hlen & H).
  change (step Close ?k ?p ?s ?m) with (k p s (s :: m)) in H.
  apply step_Chr in H as (c & s2 & -> & Hc & H).
  apply chr_is_true in Hc. subst c.
  apply step_NotAhead in H as [Ha2 H].
  injection H as <- <-.
  split.
  - intros ->. specialize (Hb m eq_refl). apply chr_is_false in Hb.
    congruence.
  - exists x. repeat split.
    + intros ->. simpl in Hlen. lia.
    + intro Hin. rewrite forallb_forall in Hx. apply Hx in Hin.
      apply negb_true_iff, chr_is_false in Hin. congruence.
    + intro E. apply Ha2 in E. apply chr_is_false in E. congruence.
Qed.

Lemma between_app (x y : str) : between (x ++ y) y = x.
Proof.
  unfold between. rewrite length_app, Nat.add_sub.
  rewrite firstn_app, Nat.sub_diag, firstn_all. simpl. apply app_nil_r.
Qed.

Lemma group_1_two_marks (x y : str) : group 1 [y; x ++ y] = x.
Proof. unfold group. simpl. apply between_app. Qed.

(** ** The inline formatter *)

(** C5: in [*a* **b** *c*] exactly [b] is wrapped in strong emphasis and
    [a] and [c] each in standard emphasis, no span runs from one marker
    group into another; and wherever the single-asterisk rule fires (the
    replace loop fires it exactly where its expression matches), both of
    its asterisks stand alone: the opening one has no asterisk before or
    after it, the closing one none before or after it, so an asterisk of
    a double marker is never taken by this rule. *)
Theorem inline_marker_groups :
  applyInlineFormatting (lit "*a* **b** *c*")
  = lit "<em>a</em> <strong>b</strong> <em>c</em>"
  /\ applyInlineFormatting (lit "**a*") = lit "**a*"
  /\ applyInlineFormatting (lit "*a**") = lit "*a**"
  /\ forall prev s ms rest,
       run reItalicStar prev s [] = Some (ms, rest) ->
       prev <> Some STAR
       /\ exists x,
            s = STAR :: x ++ STAR :: rest
            /\ x <> [] /\ ~ In STAR x
            /\ hd_error rest <> Some STAR
            /\ em ms = lit "<em>" ++ x ++ lit "</em>".
Proof.
  split; [vm_compute; reflexivity|].
  split; [vm_compute; reflexivity|].
  split; [vm_compute; reflexivity|].
  intros prev s ms rest H.
  apply run_reItalic in H as (Hp & x & Hs & Hne & Hin & Hhd & ->).
  split; [exact Hp|]. exists x. repeat split; auto.
  unfold em. rewrite group_1_two_marks. reflexivity.
Qed.

Lemma inline_marker_groups_witness :
  exists x, lit "*a* b" = STAR :: x ++ STAR :: lit " b" /\ x <> [].
Proof.
  destruct (proj2 (proj2 (proj2 inline_marker_groups))
              None (lit "*a* b") [lit "* b"; lit "a* b"] (lit " b")
              eq_refl)
    as (_ & x & Hs & Hne & _).
  exists x. split; assumption.
Defined.

(** ** The block formatter *)

(** C2: for the four lines [# Title], [- one], [- two], [plain] the
    block formatter gives a level-1 heading with [Title], then one
    bullet list with the items [one] and [two] in this order, closed
    before [plain]; no list tag is left open. *)
Theorem formatMessage_heading_list_plain :
  formatMessage (lit "# Title" ++ [LF] ++ lit "- one" ++ [LF]
                 ++ lit "- two" ++ [LF] ++ lit "plain")
  = lit "<h1>Title</h1><ul><li>one</li><li>two</li></ul>plain".
Proof. vm_compute. reflexivity. Qed.

(** *** Blank lines *)

Lemma dropSpaces_nil (s : str) :
  dropSpaces s = [] <-> forallb isSpace s = true.
Proof.
  induction s as [|c s IH]; simpl; [tauto|].
  destruct (isSpace c); simpl; [exact IH|].
  split; discriminate.
Qed.

Lemma dropSpaces_blank (s : str) :
  forallb isSpace (dropSpaces s) = true <-> forallb isSpace s = true.
Proof.
  induction s as [|c s IH]; simpl; [tauto|].
  destruct (isSpace c) eqn:E; simpl; [exact IH|].
  rewrite E. simpl. tauto.
Qed.

Lemma forallb_rev (p : char -> bool) (s : str) :
  forallb p (rev s) = true <-> forallb p s = true.
Proof.
  rewrite !forallb_forall. split; intros H x Hx; apply H.
  - apply in_rev in Hx. exact Hx.
  - apply in_rev. exact Hx.
Qed.

(** [line.trim() === ""] says that the line holds white space only. *)
Lemma trim_blank (s : str) :
  isEmpty (trim s) = true <-> forallb isSpace s = true.
Proof.
  unfold trim.
  rewrite <- dropSpaces_blank, <- forallb_rev, <- dropSpaces_nil.
  destruct (dropSpaces (rev (dropSpaces s))) as [|c t] eqn:E; simpl.
  - tauto.
  - split; intro H; exfalso; [|discriminate].
    destruct (rev t); discriminate.
Qed.

Lemma trim_not_blank (s : str) :
  isEmpty (trim s) = false <-> forallb isSpace s = false.
Proof.
  rewrite <- !not_true_iff_false, trim_blank. tauto.
Qed.

Lemma space_is_no_mark (c : char) :
  isSpace c = true ->
  isHash c = false /\ isBulletMark c = false /\ isStar c = false
  /\ chr_is STAR c = false /\ chr_is UNDERSCORE c = false.
Proof.
  intro H. repeat split.
  - unfold isHash. apply chr_is_false. intros ->. discriminate.
  - unfold isBulletMark. rewrite !orb_false_iff.
    repeat split; apply chr_is_false; intros ->; discriminate.
  - unfold isStar. apply chr_is_false. intros ->. discriminate.
  - apply chr_is_false. intros ->. discriminate.
  - apply chr_is_false. intros ->. discriminate.
Qed.

Lemma blank_suffix (pre post : str) :
  forallb isSpace (pre ++ post) = true -> forallb isSpace post = true.
Proof. rewrite forallb_app, andb_true_iff. tauto. Qed.

(** *** Anchored expressions *)

Lemma search_anchored_later (r : regex) (c : char) (s : str) :
  search (Bol :: r) (Some c) s = None.
Proof.
  revert c. induction s as [|d s IH]; intro c; simpl; [reflexivity|].
  apply IH.
Qed.

Lemma search_anchored (r : regex) (s : str) :
  search (Bol :: r) None s = run r None s [].
Proof.
  destruct s as [|c s]; simpl.
  - destruct (run r None [] []); reflexivity.
  - destruct (run r None (c :: s) []); [reflexivity|].
    apply search_anchored_later.
Qed.

Lemma blank_no_heading (b : str) :
  forallb isSpace b = true -> search reHeading None b = None.
Proof.
  intro H. unfold reHeading. rewrite search_anchored. cbn [run].
  change (step Open ?k ?p ?s ?m) with (k p s (s :: m)).
  apply rep_first; [lia|].
  destruct b as [|c b]; [exact I|].
  simpl in H. apply andb_true_iff in H as [H _].
  apply space_is_no_mark in H. tauto.
Qed.

Lemma blank_no_heading_start (b : str) :
  forallb isSpace b = true -> test reHeadingStart b = false.
Proof.
  intro H. unfold test, reHeadingStart. rewrite search_anchored.
  cbn [run step]. rewrite rep_first; [reflexivity|lia|].
  destruct b as [|c b]; [exact I|].
  simpl in H. apply andb_true_iff in H as [H _].
  apply space_is_no_mark in H. tauto.
Qed.

Lemma chr_fails_on_blank (p : char -> bool) (k : matcher) prev s ms :
  (forall c, isSpace c = true -> p c = false) ->
  forallb isSpace s = true ->
  step (Chr p) k prev s ms = None.
Proof.
  intros Hp H. destruct s as [|c s]; [reflexivity|].
  simpl in H. apply andb_true_iff in H as [H _].
  simpl. rewrite (Hp c H). reflexivity.
Qed.

Lemma blank_no_bullet (b : str) :
  forallb isSpace b = true -> search reBullet None b = None.
Proof.
  intro H. unfold reBullet. rewrite search_anchored. cbn [run].
  apply rep_none. intros pre post prev' ->.
  change (step Open ?k ?p ?s ?m) with (k p s (s :: m)).
  apply chr_fails_on_blank.
  - intros c Hc. apply space_is_no_mark in Hc. tauto.
  - eapply blank_suffix, H.
Qed.

Lemma blank_no_bullet_start (b : str) :
  forallb isSpace b = true -> test reBulletStart b = false.
Proof.
  intro H. unfold test, reBulletStart. rewrite search_anchored.
  cbn [run]. change (step (Rep ?g ?lo ?hi ?p) ?k) with (rep g p k lo hi).
  rewrite rep_none; [reflexivity|]. intros pre post prev' ->.
  apply chr_fails_on_blank.
  - intros c Hc. apply space_is_no_mark in Hc. tauto.
  - eapply blank_suffix, H.
Qed.

(** *** The replace loop *)

Lemma replaceFrom_cons (r : regex) (f : marks -> str) prev c s :
  replaceFrom r f prev (c :: s) 0
  = match run r prev (c :: s) [] with
    | Some (ms, rest) =>
        match length (c :: s) - length rest with
        | O => f ms ++ c :: replaceFrom r f (Some c) s 0
        | S n => f ms ++ replaceFrom r f (Some c) s n
        end
    | None => c :: replaceFrom r f (Some c) s 0
    end.
Proof. reflexivity. Qed.

(** Where the expression matches nowhere, [replace] returns the text. *)
Lemma replaceFrom_unmatched (r : regex) (f : marks -> str) (s : str) :
  forall prev,
    (forall pre t prev', s = pre ++ t -> run r prev' t [] = None) ->
    replaceFrom r f prev s 0 = s.
Proof.
  induction s as [|c s IH]; intros prev H; simpl.
  - rewrite (H [] [] prev eq_refl). reflexivity.
  - rewrite (H [] (c :: s) prev eq_refl). f_equal.
    apply IH. intros pre t prev' ->. apply (H (c :: pre)). reflexivity.
Qed.

(** A replacement that is never blank keeps a text that is not blank
    from becoming blank. *)
Lemma replaceFrom_not_blank (r : regex) (f : marks -> str) (s : str) :
  (forall ms, forallb isSpace (f ms) = false) ->
  forall prev,
    forallb isSpace s = false ->
    forallb isSpace (replaceFrom r f prev s 0) = false.
Proof.
  intro Hf. induction s as [|c s IH]; intros prev H; [discriminate|].
  rewrite replaceFrom_cons.
  destruct (run r prev (c :: s) []) as [[ms rest]|].
  - destruct (length (c :: s) - length rest);
      rewrite forallb_app, Hf; reflexivity.
  - simpl. simpl in H. destruct (isSpace c); [|reflexivity].
    simpl in *. apply IH, H.
Qed.

Lemma count_two (m : char) (x rest : str) :
  2 <= count_occ N.eq_dec (m :: x ++ m :: rest) m.
Proof.
  rewrite count_occ_cons_eq by reflexivity.
  rewrite count_occ_app, count_occ_cons_eq by reflexivity.
  apply le_n_S, Nat.lt_le_trans with (m := S (count_occ N.eq_dec rest m)).
  - apply Nat.lt_0_succ.
  - apply Nat.le_add_l.
Qed.

Lemma count_suffix (m : char) (pre t : str) :
  count_occ N.eq_dec t m <= count_occ N.eq_dec (pre ++ t) m.
Proof. rewrite count_occ_app. apply Nat.le_add_l. Qed.

Lemma run_reBold_two_stars prev s ms r :
  run reBold prev s ms = Some r -> 2 <= count_occ N.eq_dec s STAR.
Proof.
  intro H. unfold reBold in H. cbn [run] in H.
  apply step_Chr in H as (c & s1 & -> & Hc & H).
  apply step_Chr in H as (d & s2 & -> & Hd & H).
  apply chr_is_true in Hc, Hd. subst c d.
  apply (count_two STAR [] s2).
Qed.

Lemma run_reItalic_two_markers (m : char) prev s ms r :
  run (reItalic m) prev s ms = Some r -> 2 <= count_occ N.eq_dec s m.
Proof.
  intro H. destruct r as [ms' rest].
  apply run_reItalic in H as (_ & x & -> & _). apply count_two.
Qed.

Lemma replace_few_markers (r : regex) (f : marks -> str) (m : char)
    (n : nat) (s : str) :
  (forall prev t ms res,
      run r prev t ms = Some res -> n <= count_occ N.eq_dec t m) ->
  count_occ N.eq_dec s m < n ->
  replaceAll r f s = s.
Proof.
  intros Hr Hs. apply replaceFrom_unmatched. intros pre t prev' ->.
  destruct (run r prev' t []) as [res|] eqn:E; [|reflexivity].
  apply Hr in E. pose proof (count_suffix m pre t) as Hc.
  exfalso. apply (Nat.lt_irrefl n).
  eapply Nat.le_lt_trans; [exact E|]. eapply Nat.le_lt_trans; eassumption.
Qed.

(** A line with at most one asterisk and at most one underscore comes
    back from the inline formatter as it is. *)
Lemma inline_few_markers (s : str) :
  count_occ N.eq_dec s STAR <= 1 ->
  count_occ N.eq_dec s UNDERSCORE <= 1 ->
  applyInlineFormatting s = s.
Proof.
  intros Hs Hu. unfold applyInlineFormatting.
  apply Nat.lt_succ_r in Hs, Hu.
  rewrite (replace_few_markers reBold strong STAR 2 s);
    [|intros; eapply run_reBold_two_stars; eassumption|exact Hs].
  rewrite (replace_few_markers reItalicStar em STAR 2 s);
    [|intros; eapply run_reItalic_two_markers; eassumption|exact Hs].
  apply (replace_few_markers reItalicUnderscore em UNDERSCORE 2 s);
    [intros; eapply run_reItalic_two_markers; eassumption|exact Hu].
Qed.

Lemma blank_no_marker (m : char) (s : str) :
  isSpace m = false ->
  forallb isSpace s = true -> count_occ N.eq_dec s m = 0.
Proof.
  intros Hm H. apply count_occ_not_In. intro Hin.
  rewrite forallb_forall in H. apply H in Hin. congruence.
Qed.

Lemma inline_blank (b : str) :
  forallb isSpace b = true -> applyInlineFormatting b = b.
Proof.
  intro H. apply inline_few_markers.
  - rewrite (blank_no_marker STAR b eq_refl H). lia.
  - rewrite (blank_no_marker UNDERSCORE b eq_refl H). lia.
Qed.

Lemma strong_not_blank (ms : marks) : forallb isSpace (strong ms) = false.
Proof. reflexivity. Qed.

Lemma em_not_blank (ms : marks) : forallb isSpace (em ms) = false.
Proof. reflexivity. Qed.

Lemma inline_not_blank (s : str) :
  forallb isSpace s = false ->
  forallb isSpace (applyInlineFormatting s) = false.
Proof.
  intro H. unfold applyInlineFormatting, replaceAll.
  apply replaceFrom_not_blank; [exact em_not_blank|].
  apply replaceFrom_not_blank; [exact em_not_blank|].
  apply replaceFrom_not_blank; [exact strong_not_blank|exact H].
Qed.

(** *** Line breaks *)

Lemma formatLines_regular (inList : bool) (line : str) (rest : list str) :
  search reHeading None line = None ->
  search reBullet None line = None ->
  formatLines inList (line :: rest)
  = closeList inList
    ++ applyInlineFormatting line
    ++ match rest with
       | nextLine :: _ => lineBreak (applyInlineFormatting line) nextLine
       | [] => []
       end
    ++ formatLines false rest.
Proof.
  intros Hh Hb. cbn [formatLines]. rewrite Hh, Hb. reflexivity.
Qed.

Lemma lineBreak_blank_current (line nextLine : str) :
  forallb isSpace line = true -> lineBreak line nextLine = lit "<br>".
Proof.
  intro H. apply trim_blank in H. unfold lineBreak. rewrite H.
  destruct (test reHeadingStart nextLine), (test reBulletStart nextLine);
    reflexivity.
Qed.

Lemma lineBreak_blank_next (line nextLine : str) :
  forallb isSpace nextLine = true -> lineBreak line nextLine = lit "<br>".
Proof.
  intro H. apply trim_blank in H. unfold lineBreak. rewrite H.
  destruct (test reHeadingStart nextLine), (test reBulletStart nextLine),
    (isEmpty (trim line)); reflexivity.
Qed.

Lemma lineBreak_not_blank (line nextLine : str) :
  forallb isSpace line = false -> forallb isSpace nextLine = false ->
  lineBreak line nextLine
  = if test reHeadingStart nextLine || test reBulletStart nextLine
    then [] else lit "<br>".
Proof.
  intros H1 H2. apply trim_not_blank in H1, H2. unfold lineBreak.
  rewrite H1, H2.
  destruct (test reHeadingStart nextLine), (test reBulletStart nextLine);
    reflexivity.
Qed.

Lemma formatLines_blank (inList : bool) (b next : str) (rest : list str) :
  forallb isSpace b = true ->
  formatLines inList (b :: next :: rest)
  = closeList inList ++ b ++ lit "<br>" ++ formatLines false (next :: rest).
Proof.
  intro H.
  rewrite formatLines_regular
    by (apply blank_no_heading || apply blank_no_bullet; exact H).
  rewrite (inline_blank b H), (lineBreak_blank_current b next H).
  reflexivity.
Qed.

(** What the loop writes for the lines before a line [x] does not depend
    on the lines after [x]. *)
Lemma formatLines_prefix (x : str) (pre : list str) :
  forall inList, exists out inList',
    forall rest,
      formatLines inList (pre ++ x :: rest)
      = out ++ formatLines inList' (x :: rest).
Proof.
  induction pre as [|l pre IH]; intro inList.
  - exists [], inList. reflexivity.
  - assert (Hnext : exists nextLine, forall rest,
               exists tl, pre ++ x :: rest = nextLine :: tl).
    { destruct pre as [|l2 pre]; [exists x|exists l2]; intro rest; eexists; reflexivity. }
    destruct Hnext as [nextLine Hnext].
    destruct (search reHeading None l) as [[ms r]|] eqn:Eh.
    + destruct (IH false) as (out & st & H).
      exists (closeList inList
              ++ lit "<h" ++ decimal (N.of_nat (length (group 1 ms)))
              ++ lit ">" ++ applyInlineFormatting (group 2 ms)
              ++ lit "</h" ++ decimal (N.of_nat (length (group 1 ms)))
              ++ lit ">" ++ out), st.
      intro rest.
      change ((l :: pre) ++ x :: rest) with (l :: (pre ++ x :: rest)).
      cbn [formatLines]. rewrite Eh, H.
      repeat rewrite <- app_assoc. reflexivity.
    + destruct (search reBullet None l) as [[ms r]|] eqn:Eb.
      * destruct (IH true) as (out & st & H).
        exists (openList inList ++ lit "<li>"
                ++ applyInlineFormatting (group 2 ms) ++ lit "</li>"
                ++ out), st.
        intro rest.
        change ((l :: pre) ++ x :: rest) with (l :: (pre ++ x :: rest)).
        cbn [formatLines]. rewrite Eh, Eb, H.
        repeat rewrite <- app_assoc. reflexivity.
      * destruct (IH false) as (out & st & H).
        exists (closeList inList ++ applyInlineFormatting l
                ++ lineBreak (applyInlineFormatting l) nextLine ++ out), st.
        intro rest.
        change ((l :: pre) ++ x :: rest) with (l :: (pre ++ x :: rest)).
        cbn [formatLines]. rewrite Eh, Eb, H.
        destruct (Hnext rest) as [tl ->].
        repeat rewrite <- app_assoc. reflexivity.
Qed.

(** C6: after a regular line (neither heading nor bullet) that is
    followed by two blank lines and a further line, the loop writes the
    line, one break, the first blank line, one break, the second blank
    line, one break, and goes on with the further line: one break for
    each of the three transitions, whatever the list flag was; so does
    the block formatter wherever the lines of its input hold such a run.
    After a regular line that is not blank and is followed by a line that
    is not blank, the loop writes a break exactly when the next line does
    not start a heading or a bullet.  For [a], two empty lines and [b]
    the formatter gives [a], three breaks and [b]. *)
Theorem formatLines_breaks (cur next : str) (rest : list str) :
  search reHeading None cur = None ->
  search reBullet None cur = None ->
  (forall inList b1 b2,
      isEmpty (trim b1) = true -> isEmpty (trim b2) = true ->
      formatLines inList (cur :: b1 :: b2 :: next :: rest)
      = closeList inList ++ applyInlineFormatting cur ++ lit "<br>"
        ++ b1 ++ lit "<br>" ++ b2 ++ lit "<br>"
        ++ formatLines false (next :: rest))
  /\ (forall text pre b1 b2,
        split reNewline (escapeHtml text)
        = pre ++ cur :: b1 :: b2 :: next :: rest ->
        isEmpty (trim b1) = true -> isEmpty (trim b2) = true ->
        exists out inList,
          formatMessage text
          = out ++ closeList inList ++ applyInlineFormatting cur
            ++ lit "<br>" ++ b1 ++ lit "<br>" ++ b2 ++ lit "<br>"
            ++ formatLines false (next :: rest))
  /\ (forall inList,
        isEmpty (trim cur) = false -> isEmpty (trim next) = false ->
        formatLines inList (cur :: next :: rest)
        = closeList inList ++ applyInlineFormatting cur
          ++ (if test reHeadingStart next || test reBulletStart next
              then [] else lit "<br>")
          ++ formatLines false (next :: rest))
  /\ formatMessage (lit "a" ++ [LF; LF; LF] ++ lit "b")
     = lit "a<br><br><br>b".
Proof.
  intros Hh Hb.
  assert (Hrun : forall inList b1 b2,
             isEmpty (trim b1) = true -> isEmpty (trim b2) = true ->
             formatLines inList (cur :: b1 :: b2 :: next :: rest)
             = closeList inList ++ applyInlineFormatting cur ++ lit "<br>"
               ++ b1 ++ lit "<br>" ++ b2 ++ lit "<br>"
               ++ formatLines false (next :: rest)).
  { intros inList b1 b2 H1 H2. apply trim_blank in H1, H2.
    rewrite (formatLines_regular inList cur _ Hh Hb).
    rewrite (lineBreak_blank_next _ b1 H1).
    rewrite (formatLines_blank false b1 b2 _ H1).
    rewrite (formatLines_blank false b2 next _ H2).
    reflexivity. }
  split; [exact Hrun|]. split; [|split].
  - intros text pre b1 b2 Hlines H1 H2.
    destruct (formatLines_prefix cur pre false) as (out & inList & Hpre).
    exists out, inList. unfold formatMessage.
    destruct text as [|c text].
    + apply (f_equal (@length str)) in Hlines.
      rewrite length_app in Hlines. simpl in Hlines. lia.
    + cbn [isEmpty]. cbv zeta. rewrite Hlines, Hpre.
      rewrite (Hrun inList b1 b2 H1 H2). reflexivity.
  - intros inList H1 H2. apply trim_not_blank in H1, H2.
    rewrite (formatLines_regular inList cur _ Hh Hb).
    rewrite (lineBreak_not_blank _ next (inline_not_blank cur H1) H2).
    reflexivity.
  - vm_compute. reflexivity.
Qed.

Lemma formatLines_breaks_witness :
  formatLines true [lit "see *this*"; []; lit "  "; lit "# done"]
  = lit "</ul>see <em>this</em><br><br>  <br><h1>done</h1>"
  /\ formatLines false [lit "one"; lit "- two"]
     = lit "one<ul><li>two</li></ul>".
Proof.
  split.
  - apply (proj1 (formatLines_breaks (lit "see *this*") (lit "# done")
                    [] eq_refl eq_refl) true [] (lit "  ") eq_refl eq_refl).
  - apply (proj1 (proj2 (proj2
             (formatLines_breaks (lit "one") (lit "- two")
                [] eq_refl eq_refl))) false eq_refl eq_refl).
Defined.

(** *** Repeated formatting, single markers, empty spans *)

(** The bold expression matches two asterisks, a non-empty run and two
    more asterisks. *)
Lemma run_reBold prev s ms ms' rest :
  run reBold prev s ms = Some (ms', rest) ->
  exists x,
    s = STAR :: STAR :: x ++ STAR :: STAR :: rest /\ x <> []
    /\ forallb isDot x = true
    /\ ms' = (STAR :: STAR :: rest) :: (x ++ STAR :: STAR :: rest) :: ms.
Proof.
  intro H. unfold reBold in H. cbn [run] in H.
  apply step_Chr in H as (c & s1 & -> & Hc & H).
  apply step_Chr in H as (d & s2 & -> & Hd & H).
  apply chr_is_true in Hc, Hd. subst c d.
  change (step Open ?k ?p ?s ?m) with (k p s (s :: m)) in H.
  apply rep_sound in H as (x & post & -> & Hx & Hlen & H).
  change (step Close ?k ?p ?s ?m) with (k p s (s :: m)) in H.
  apply step_Chr in H as (c & s3 & -> & Hc & H).
  apply step_Chr in H as (d & s4 & -> & Hd & H).
  apply chr_is_true in Hc, Hd. subst c d.
  injection H as <- <-.
  exists x. repeat split; auto.
  intros ->. simpl in Hlen. lia.
Qed.

Lemma run_reBold_four_stars prev s ms r :
  run reBold prev s ms = Some r -> 4 <= count_occ N.eq_dec s STAR.
Proof.
  intro H. destruct r as [ms' rest].
  apply run_reBold in H as (x & -> & _).
  rewrite !count_occ_cons_eq by reflexivity.
  rewrite count_occ_app, !count_occ_cons_eq by reflexivity.
  rewrite Nat.add_succ_r, Nat.add_succ_r.
  do 4 apply le_n_S. apply Nat.le_0_l.
Qed.

(** Two adjacent markers with no other marker of their kind around them
    are no match of the italic expression, wherever the matcher starts. *)
Lemma italic_pair_unmatched (m : char) (a b : str) :
  ~ In m a -> ~ In m b ->
  forall pre t prev',
    a ++ m :: m :: b = pre ++ t -> run (reItalic m) prev' t [] = None.
Proof.
  intros Ha Hb pre t prev' E.
  destruct (run (reItalic m) prev' t []) as [[ms' rest]|] eqn:R;
    [exfalso|reflexivity].
  apply run_reItalic in R as (_ & x & -> & Hne & Hx & _).
  destruct x as [|x0 x]; [congruence|].
  assert (Hx0 : x0 <> m) by (intros ->; apply Hx; left; reflexivity).
  assert (Hin : In m (x0 :: x ++ m :: rest))
    by (right; apply in_or_app; right; left; reflexivity).
  apply app_eq_app in E as [l [[E1 E2]|[E1 E2]]].
  - destruct l as [|l0 l]; simpl in E2.
    + injection E2 as E2 _. congruence.
    + injection E2 as E2 _. apply Ha. rewrite E1, <- E2.
      apply in_or_app. right. left. reflexivity.
  - destruct l as [|l0 [|l1 l]]; simpl in E2.
    + injection E2 as E2 _. congruence.
    + injection E2 as _ E2. apply Hb. rewrite E2. exact Hin.
    + injection E2 as _ _ E2. apply Hb. rewrite E2.
      apply in_or_app. right. left. reflexivity.
Qed.

Lemma count_pair (m c : char) (a b : str) :
  ~ In c a -> ~ In c b ->
  count_occ N.eq_dec (a ++ m :: m :: b) c <= 2.
Proof.
  intros Ha Hb. unfold str, char in *. rewrite count_occ_app.
  apply (count_occ_not_In N.eq_dec) in Ha, Hb. rewrite Ha. simpl.
  destruct (N.eq_dec m c); rewrite Hb; auto.
Qed.

Lemma count_pair_other (m c : char) (a b : str) :
  m <> c -> ~ In c a -> ~ In c b ->
  count_occ N.eq_dec (a ++ m :: m :: b) c = 0.
Proof.
  intros Hm Ha Hb. unfold str, char in *. rewrite count_occ_app.
  apply (count_occ_not_In N.eq_dec) in Ha, Hb. rewrite Ha. simpl.
  destruct (N.eq_dec m c); [contradiction|exact Hb].
Qed.

(** A pair of markers with nothing between them gives no emphasis. *)
Lemma inline_empty_span (m : char) (a b : str) :
  m = STAR \/ m = UNDERSCORE ->
  ~ In STAR a -> ~ In UNDERSCORE a -> ~ In STAR b -> ~ In UNDERSCORE b ->
  applyInlineFormatting (a ++ m :: m :: b) = a ++ m :: m :: b.
Proof.
  intros Hm Has Hau Hbs Hbu. unfold applyInlineFormatting.
  rewrite (replace_few_markers reBold strong STAR 4);
    [|intros; eapply run_reBold_four_stars; eassumption
     |eapply Nat.le_lt_trans; [apply count_pair; assumption|auto]].
  destruct Hm as [-> | ->].
  - rewrite (replaceFrom_unmatched reItalicStar em _ None
               (italic_pair_unmatched STAR a b Has Hbs)
             : replaceAll reItalicStar em _ = _).
    apply (replace_few_markers reItalicUnderscore em UNDERSCORE 2);
      [intros; eapply run_reItalic_two_markers; eassumption|].
    rewrite count_pair_other; [auto|discriminate|assumption|assumption].
  - rewrite (replace_few_markers reItalicStar em STAR 2);
      [|intros; eapply run_reItalic_two_markers; eassumption
       |rewrite count_pair_other;
        [auto|discriminate|assumption|assumption]].
    apply (replaceFrom_unmatched reItalicUnderscore em _ None
             (italic_pair_unmatched UNDERSCORE a b Hau Hbu)).
Qed.

(** C8, as amended: when the output of the inline formatter holds at
    most one asterisk and at most one underscore, formatting it again
    changes nothing; a line with at most one asterisk and at most one
    underscore is left as it is, so an unmatched single marker stays
    literal; and two adjacent markers with nothing between them, in a
    line with no other marker, give no emphasis, nor do four asterisks
    in a row. *)
Theorem inline_repeat_and_edges (s : str) :
  (count_occ N.eq_dec (applyInlineFormatting s) STAR <= 1 ->
   count_occ N.eq_dec (applyInlineFormatting s) UNDERSCORE <= 1 ->
   applyInlineFormatting (applyInlineFormatting s)
   = applyInlineFormatting s)
  /\ (count_occ N.eq_dec s STAR <= 1 ->
      count_occ N.eq_dec s UNDERSCORE <= 1 ->
      applyInlineFormatting s = s)
  /\ (forall m a b,
        m = STAR \/ m = UNDERSCORE ->
        ~ In STAR a -> ~ In UNDERSCORE a ->
        ~ In STAR b -> ~ In UNDERSCORE b ->
        applyInlineFormatting (a ++ m :: m :: b) = a ++ m :: m :: b)
  /\ applyInlineFormatting (lit "****") = lit "****".
Proof.
  split; [apply inline_few_markers|].
  split; [apply inline_few_markers|].
  split; [apply inline_empty_span|].
  vm_compute. reflexivity.
Qed.

Lemma inline_repeat_and_edges_witness :
  applyInlineFormatting (applyInlineFormatting (lit "2 * **x** = _y"))
  = applyInlineFormatting (lit "2 * **x** = _y")
  /\ applyInlineFormatting (lit "a * b") = lit "a * b"
  /\ applyInlineFormatting (lit "a ** b") = lit "a ** b".
Proof.
  split; [|split].
  - apply (proj1 (inline_repeat_and_edges (lit "2 * **x** = _y")));
      vm_compute; lia.
  - apply (proj1 (proj2 (inline_repeat_and_edges (lit "a * b"))));
      vm_compute; lia.
  - apply (proj1 (proj2 (proj2 (inline_repeat_and_edges [])))
             STAR (lit "a ") (lit " b")).
    + left. reflexivity.
    + vm_compute. intuition discriminate.
    + vm_compute. intuition discriminate.
    + vm_compute. intuition discriminate.
    + vm_compute. intuition discriminate.
Defined.

(** C8 as stated fails: the escaped line of four asterisks, [a] and four
    asterisks is formatted to a text that the formatter changes again. *)
Lemma inline_not_idempotent :
  ~ (forall text,
        let line := escapeHtml text in
        applyInlineFormatting (applyInlineFormatting line)
        = applyInlineFormatting line).
Proof.
  intro H. specialize (H (lit "****a****")). vm_compute in H.
  discriminate H.
Qed.

(** ** The transcript *)

Lemma push_history (e : entry) (s : session) :
  chatHistory (push e s) = chatHistory s ++ [e].
Proof. reflexivity. Qed.

Lemma callOpenAI_returns (net : fetchResult) (s : session) :
  callOpenAI net s = Returned (push (assistantEntry (replyContent net)) s).
Proof.
  destruct net as [message|status text|[reply|]|message]; reflexivity.
Qed.

(** C7, as amended: whatever the network call gives, a reply, a status
    that is not a success, a thrown error, a body other than [null]
    without the reply field, or the body [null], [callOpenAI] returns
    (nothing is thrown to the caller) and has appended exactly one
    entry, of role assistant and without the seed flag, to the
    transcript; its content is the reply, or an [Error:] description
    with the message or with the status and the body text, or, where the
    reply field is missing from a body other than [null], the fixed text
    [Sorry, I did not receive a reply.]  On the body [null] the access
    [data.choices] throws before the fallback is reached, and the entry
    holds the message of that error. *)
Theorem callOpenAI_appends_one (net : fetchResult) (s : session) :
  exists e,
    callOpenAI net s = Returned (push e s)
    /\ chatHistory (push e s) = chatHistory s ++ [e]
    /\ role e = assistant /\ initial e = false
    /\ content e
       = match net with
         | Success (Some reply) => reply
         | Success None => lit "Sorry, I did not receive a reply."
         | Failure status text =>
             lit "Error: Worker proxy error: " ++ decimal status
             ++ lit " " ++ text
         | Rejected message => lit "Error: " ++ message
         | NullBody message => lit "Error: " ++ message
         end.
Proof.
  exists (assistantEntry (replyContent net)).
  split; [apply callOpenAI_returns|]. repeat split.
Qed.

(** C7 as stated fails: the text appended for a body without the reply
    field is not [no reply received]. *)
Lemma fallback_is_not_no_reply_received :
  ~ (forall s, exists e,
        callOpenAI (Success None) s = Returned (push e s)
        /\ content e = lit "no reply received").
Proof.
  intro H. destruct (H initialSession) as (e & He & Hc).
  rewrite callOpenAI_returns in He. injection He as He.
  rewrite <- He in Hc. discriminate Hc.
Qed.

Lemma filter_all (f : entry -> bool) (h : list entry) :
  (forall m, In m h -> f m = true) -> filter f h = h.
Proof.
  induction h as [|m h IH]; intro H; [reflexivity|].
  simpl. rewrite (H m (or_introl eq_refl)). f_equal.
  apply IH. intros m' Hm'. apply H. right. exact Hm'.
Qed.

Lemma removeTransient_appendPlaceholder (s : session) :
  chatHistory (removeTransient (appendPlaceholder s))
  = filter (fun m => negb (isPlaceholder m)) (chatHistory s).
Proof.
  unfold removeTransient, appendPlaceholder, filterHistory. simpl.
  rewrite filter_app. simpl. apply app_nil_r.
Qed.

(** For a transcript that holds no assistant entry whose content is the
    placeholder text, appending the placeholder and then removing it
    gives the session as it was, the same entries at the same positions;
    for any transcript the removal step is the filter on role and
    content. *)
Lemma placeholder_appended_then_removed (s : session) :
  (forall m, In m (chatHistory s) -> isPlaceholder m = false) ->
  removeTransient (appendPlaceholder s) = s
  /\ length (chatHistory (removeTransient (appendPlaceholder s)))
     = length (chatHistory s)
  /\ forall s',
       chatHistory (removeTransient (appendPlaceholder s'))
       = filter (fun m => negb (isPlaceholder m)) (chatHistory s').
Proof.
  intro H.
  assert (E : removeTransient (appendPlaceholder s) = s).
  { pose proof (removeTransient_appendPlaceholder s) as Eh.
    rewrite filter_all in Eh
      by (intros m Hm; rewrite (H m Hm); reflexivity).
    destruct s as [h n a]. unfold removeTransient, filterHistory in *.
    simpl in *. rewrite Eh. reflexivity. }
  split; [exact E|]. split; [rewrite E; reflexivity|].
  apply removeTransient_appendPlaceholder.
Qed.

Lemma placeholder_appended_then_removed_witness :
  removeTransient (appendPlaceholder initialSession) = initialSession.
Proof.
  apply (placeholder_appended_then_removed initialSession).
  intros m [<- | []]. reflexivity.
Defined.

(** C4: the code misses what the claim says, on a session the widget
    reaches.  After the message [hi] and a reply whose text is
    [Thinking...], the transcript holds the message and that reply.
    Appending the placeholder and removing it then leaves the message
    alone: the removal goes by role and content, not by the entry that
    was appended, and takes the earlier reply with it, although the
    source announces it as the removal of the temporary entry.  So the
    next submission ends with a transcript from which that reply is
    gone, and the step does not give every session back as it was. *)
Theorem placeholder_removal_drops_a_reply :
  chatHistory sessionAfterThinkingReply
  = [userEntry (lit "hi"); assistantEntry (lit "Thinking...")]
  /\ chatHistory (removeTransient (appendPlaceholder
                                    sessionAfterThinkingReply))
     = [userEntry (lit "hi")]
  /\ chatHistory (sessionOf (chatFormSubmit (lit "more") Blocked
                               (Success (Some (lit "ok")))
                               sessionAfterThinkingReply))
     = [userEntry (lit "hi"); userEntry (lit "more");
        assistantEntry (lit "ok")]
  /\ ~ (forall s, removeTransient (appendPlaceholder s) = s).
Proof.
  split; [reflexivity|]. split; [reflexivity|]. split; [reflexivity|].
  intro H. specialize (H sessionAfterThinkingReply). discriminate H.
Qed.

(** *** Submissions *)

Lemma isEmpty_true (s : str) : isEmpty s = true <-> s = [].
Proof. destruct s; simpl; split; congruence. Qed.

Lemma isEmpty_false (s : str) : isEmpty s = false <-> s <> [].
Proof. destruct s; simpl; split; congruence. Qed.

Lemma submitUser_empty value answer s :
  trim value = [] -> submitUser value answer s = (Ignored, s).
Proof. intro H. unfold submitUser. rewrite H. reflexivity. Qed.

Lemma submitUser_message value answer s :
  trim value <> [] -> isNameCommand (trim value) = false ->
  submitUser value answer s
  = (Message,
     push (userEntry (trim value)) (removeSeedGreeting (askName answer s))).
Proof.
  intros Hne Hc. apply isEmpty_false in Hne. unfold submitUser.
  rewrite Hne, Hc. reflexivity.
Qed.

Lemma chatFormSubmit_message value answer net s :
  trim value <> [] -> isNameCommand (trim value) = false ->
  chatFormSubmit value answer net s
  = callOpenAI net
      (removeTransient
         (appendPlaceholder
            (push (userEntry (trim value))
               (removeSeedGreeting (askName answer s))))).
Proof.
  intros Hne Hc. unfold chatFormSubmit.
  rewrite (submitUser_message value answer s Hne Hc). reflexivity.
Qed.

Lemma existsb_filter_negb (f : entry -> bool) (h : list entry) :
  existsb f (filter (fun m => negb (f m)) h) = false.
Proof.
  induction h as [|m h IH]; [reflexivity|].
  simpl. destruct (f m) eqn:E; simpl; [exact IH|].
  rewrite E. exact IH.
Qed.

Lemma existsb_filter (f g : entry -> bool) (h : list entry) :
  existsb f h = false -> existsb f (filter g h) = false.
Proof.
  induction h as [|m h IH]; [reflexivity|].
  simpl. intro H. apply orb_false_iff in H as [H1 H2].
  destruct (g m); simpl; [rewrite H1|]; auto.
Qed.

Lemma hasSeed_push (e : entry) (s : session) :
  isSeedGreeting e = false ->
  hasSeedGreeting (push e s) = hasSeedGreeting s.
Proof.
  intro H. unfold hasSeedGreeting. rewrite push_history, existsb_app.
  simpl. rewrite H. rewrite !orb_false_r. reflexivity.
Qed.

Lemma hasSeed_user_entries_filter (g : entry -> bool) (s : session) :
  hasSeedGreeting s = false -> hasSeedGreeting (filterHistory g s) = false.
Proof. apply existsb_filter. Qed.

Lemma hasSeed_callOpenAI (net : fetchResult) (s : session) :
  hasSeedGreeting (sessionOf (callOpenAI net s)) = hasSeedGreeting s.
Proof.
  rewrite callOpenAI_returns. simpl. apply hasSeed_push. reflexivity.
Qed.

Lemma hasSeed_askName (answer : promptAnswer) (s : session) :
  hasSeedGreeting (askName answer s) = hasSeedGreeting s.
Proof.
  unfold askName. destruct (noName s && negb (hasAskedName s));
    [|reflexivity].
  destruct answer as [v| |]; try reflexivity.
  destruct (negb (isEmpty v) && negb (isEmpty (trim v))); [|reflexivity].
  change (hasSeedGreeting (setAsked ?x)) with (hasSeedGreeting x).
  rewrite hasSeed_push by reflexivity. reflexivity.
Qed.

Lemma hasSeed_removeSeedGreeting (s : session) :
  hasSeedGreeting (removeSeedGreeting s) = false.
Proof. apply existsb_filter_negb. Qed.

(** After a submission that is a message, no seed greeting is left. *)
Lemma message_evicts_seed value answer net s :
  trim value <> [] -> isNameCommand (trim value) = false ->
  hasSeedGreeting (sessionOf (chatFormSubmit value answer net s)) = false.
Proof.
  intros Hne Hc. rewrite (chatFormSubmit_message value answer net s Hne Hc).
  rewrite hasSeed_callOpenAI.
  apply hasSeed_user_entries_filter.
  unfold appendPlaceholder. rewrite !hasSeed_push by reflexivity.
  apply hasSeed_removeSeedGreeting.
Qed.

(** No submission brings a seed greeting in. *)
Lemma submit_keeps_seed_out value answer net s :
  hasSeedGreeting s = false ->
  hasSeedGreeting (sessionOf (chatFormSubmit value answer net s)) = false.
Proof.
  intro H. unfold chatFormSubmit, submitUser.
  destruct (isEmpty (trim value)); [exact H|].
  destruct (isNameCommand (trim value)).
  - destruct (negb (isEmpty (trim (skipn 6 (trim value))))); [|exact H].
    simpl. rewrite hasSeed_push by reflexivity. exact H.
  - rewrite hasSeed_callOpenAI.
    apply hasSeed_user_entries_filter.
    unfold appendPlaceholder. rewrite !hasSeed_push by reflexivity.
    apply hasSeed_removeSeedGreeting.
Qed.

Lemma runEvents_keeps_seed_out (es : list event) (s : session) :
  hasSeedGreeting s = false -> hasSeedGreeting (runEvents s es) = false.
Proof.
  revert s. induction es as [|e es IH]; intros s H; [exact H|].
  simpl. apply IH. apply submit_keeps_seed_out, H.
Qed.

Lemma userEntries_push_assistant (c : str) (s : session) :
  userEntries (push (assistantEntry c) s) = userEntries s.
Proof.
  unfold userEntries. rewrite push_history, filter_app. simpl.
  apply app_nil_r.
Qed.

Lemma userEntries_callOpenAI (net : fetchResult) (s : session) :
  userEntries (sessionOf (callOpenAI net s)) = userEntries s.
Proof.
  rewrite callOpenAI_returns. simpl. apply userEntries_push_assistant.
Qed.

Lemma hello_on_seeded (answer : promptAnswer) (net : fetchResult) :
  userEntries (sessionOf (chatFormSubmit (lit "hello") answer net
                            initialSession))
  = [userEntry (lit "hello")].
Proof.
  rewrite chatFormSubmit_message; [|discriminate|reflexivity].
  rewrite userEntries_callOpenAI.
  destruct answer as [v| |]; try reflexivity.
  unfold askName. simpl.
  destruct (negb (isEmpty v) && negb (isEmpty (trim v))); reflexivity.
Qed.

(** C3, as amended: a submission whose text is empty after trimming
    leaves the session as it was, no entry is created; a submission
    whose trimmed text is not empty and is not a [/name] command removes
    every seed greeting and appends one user entry with the trimmed text
    (behind the acknowledgment that the one-time name prompt may have
    added), and no seed greeting is left; after one submission of
    [hello] to the seeded transcript, whatever the prompt and the network
    answer, the transcript has exactly one user entry, with content
    [hello], and no seed greeting. *)
Theorem submission_effect (value : str) (answer : promptAnswer)
    (net : fetchResult) (s : session) :
  (trim value = [] ->
   submitUser value answer s = (Ignored, s)
   /\ chatFormSubmit value answer net s = Returned s)
  /\ (trim value <> [] -> isNameCommand (trim value) = false ->
      exists s',
        submitUser value answer s = (Message, s')
        /\ chatHistory s'
           = filter (fun m => negb (isSeedGreeting m))
               (chatHistory (askName answer s))
             ++ [userEntry (trim value)]
        /\ hasSeedGreeting s' = false
        /\ hasSeedGreeting (sessionOf (chatFormSubmit value answer net s))
           = false)
  /\ (userEntries (sessionOf (chatFormSubmit (lit "hello") answer net
                                initialSession))
      = [userEntry (lit "hello")]
      /\ hasSeedGreeting (sessionOf (chatFormSubmit (lit "hello") answer net
                                       initialSession))
         = false).
Proof.
  split; [|split].
  - intro H. split; [apply submitUser_empty, H|].
    unfold chatFormSubmit. rewrite (submitUser_empty value answer s H).
    reflexivity.
  - intros Hne Hc.
    exists (push (userEntry (trim value))
              (removeSeedGreeting (askName answer s))).
    split; [apply submitUser_message; assumption|].
    split; [reflexivity|]. split.
    + rewrite hasSeed_push by reflexivity. apply hasSeed_removeSeedGreeting.
    + apply message_evicts_seed; assumption.
  - split; [apply hello_on_seeded|].
    apply message_evicts_seed; [discriminate|reflexivity].
Qed.

Lemma submission_effect_witness :
  chatFormSubmit (lit "  ") Dismissed (Success None) initialSession
  = Returned initialSession
  /\ hasSeedGreeting
       (sessionOf (chatFormSubmit (lit " hello ") Dismissed (Success None)
                     initialSession))
     = false.
Proof.
  split.
  - apply (proj1 (submission_effect (lit "  ") Dismissed (Success None)
                    initialSession)).
    reflexivity.
  - destruct (proj1 (proj2 (submission_effect (lit " hello ") Dismissed
                              (Success None) initialSession)))
      as (s' & _ & _ & _ & H); [discriminate|reflexivity|exact H].
Defined.

(** C3 as stated fails: [/name Bob] is not empty after trimming, yet the
    seed greeting stays and no user entry is appended. *)
Lemma name_command_keeps_seed :
  chatHistory (sessionOf (chatFormSubmit (lit "/name Bob") Dismissed
                            (Success None) initialSession))
  = [greeting; acknowledgment (lit "Bob")]
  /\ ~ (forall value answer net s,
          trim value <> [] ->
          hasSeedGreeting (sessionOf (chatFormSubmit value answer net s))
          = false
          /\ In (userEntry (trim value))
               (chatHistory (sessionOf (chatFormSubmit value answer net s)))).
Proof.
  split; [reflexivity|]. intro H.
  destruct (H (lit "/name Bob") Dismissed (Success None) initialSession)
    as [H1 _]; [discriminate|]. discriminate H1.
Qed.

(** C9, as amended: the eviction filter runs on every submission whose
    trimmed text is not empty and is not a [/name] command, whatever the
    session was before (not only on the first one), and removes every
    entry flagged as seed greeting, so after such a submission the
    transcript holds none; a transcript that holds none holds none after
    any further run of submissions, of whatever kind, with their
    assistant entries; the entry [callOpenAI] appends never brings the
    flag. *)
Theorem seed_greeting_evicted_for_good :
  (forall value answer net s,
      trim value <> [] -> isNameCommand (trim value) = false ->
      hasSeedGreeting (sessionOf (chatFormSubmit value answer net s))
      = false)
  /\ (forall es s,
        hasSeedGreeting s = false -> hasSeedGreeting (runEvents s es) = false)
  /\ (forall net s,
        hasSeedGreeting (sessionOf (callOpenAI net s)) = hasSeedGreeting s).
Proof.
  split; [exact message_evicts_seed|].
  split; [exact runEvents_keeps_seed_out|exact hasSeed_callOpenAI].
Qed.

Lemma seed_greeting_evicted_for_good_witness :
  hasSeedGreeting
    (runEvents
       (sessionOf (chatFormSubmit (lit "hello") (Typed (lit "Ann"))
                     (Rejected (lit "Failed to fetch")) initialSession))
       [{| typed := lit "/name Bob"; promptGives := Dismissed;
           networkGives := Success None |};
        {| typed := lit "more?"; promptGives := Dismissed;
           networkGives := Success (Some (lit "yes")) |}])
  = false.
Proof.
  apply (proj1 (proj2 seed_greeting_evicted_for_good)).
  apply (proj1 seed_greeting_evicted_for_good); [discriminate|reflexivity].
Defined.

(** C9 as stated fails: the submission [/NAME Ann] is not empty, the
    filter does not run on it and the seed greeting is still there. *)
Lemma name_command_skips_eviction :
  ~ (forall value answer net s,
        trim value <> [] ->
        hasSeedGreeting (sessionOf (chatFormSubmit value answer net s))
        = false).
Proof.
  intro H.
  specialize (H (lit "/NAME Ann") Blocked (Success None) initialSession).
  discriminate H. discriminate.
Qed.

(** * Further properties of the code *)

(** ** The escaper, once and twice *)

Lemma isSpecial_cases (c : char) :
  isSpecial c = true <-> c = AMP \/ c = NBSP \/ c = LT \/ c = GT.
Proof.
  unfold isSpecial. rewrite !orb_true_iff, !chr_is_true. tauto.
Qed.

Lemma escapeChar_length (c : char) :
  (isSpecial c = true /\ 2 <= length (Dom.escapeChar c))
  \/ (isSpecial c = false /\ Dom.escapeChar c = [c]).
Proof.
  destruct (escapeChar_cases c) as [[-> E]|[[-> E]|[[-> E]|[[-> E]|E]]]];
    try (left; split; [reflexivity|rewrite E; simpl; lia]).
  destruct E as (Ha & Hn & Hl & Hg & E). right. split; [|exact E].
  apply not_true_iff_false. rewrite isSpecial_cases. tauto.
Qed.

Lemma escapeHtml_length (text : str) :
  length text <= length (escapeHtml text)
  /\ (existsb isSpecial text = true ->
      length text < length (escapeHtml text)).
Proof.
  induction text as [|c t [IH1 IH2]]; [split; [auto|discriminate]|].
  rewrite escapeHtml_cons, length_app. simpl.
  destruct (escapeChar_length c) as [[Hs Hl]|[Hs ->]]; rewrite Hs; simpl.
  - split; [|intros _]; lia.
  - split; [lia|]. intro H. apply IH2 in H. lia.
Qed.

Lemma escapeHtml_plain (text : str) :
  existsb isSpecial text = false -> escapeHtml text = text.
Proof.
  induction text as [|c t IH]; [reflexivity|].
  simpl. intro H. apply orb_false_iff in H as [Hc Ht].
  rewrite escapeHtml_cons, (IH Ht).
  destruct (escapeChar_length c) as [[Hs _]|[_ ->]]; [congruence|].
  reflexivity.
Qed.

Lemma escapeHtml_injective (a b : str) :
  escapeHtml a = escapeHtml b -> a = b.
Proof.
  intro H. rewrite <- (decode_escapeHtml a), <- (decode_escapeHtml b), H.
  reflexivity.
Qed.

Lemma escapeHtml_fixed (text : str) :
  escapeHtml text = text <-> existsb isSpecial text = false.
Proof.
  split; [|apply escapeHtml_plain].
  intro H. destruct (existsb isSpecial text) eqn:E; [|reflexivity].
  apply escapeHtml_length in E. rewrite H in E. lia.
Qed.

(** X1: the escaper never maps two texts to the same output, and its
    output is never shorter than the text. *)
Theorem escapeHtml_loses_nothing (a b : str) :
  (escapeHtml a = escapeHtml b -> a = b)
  /\ length a <= length (escapeHtml a).
Proof.
  split; [apply escapeHtml_injective|apply escapeHtml_length].
Qed.

Lemma escapeHtml_loses_nothing_witness :
  lit "a&b" = lit "a" ++ [AMP] ++ lit "b".
Proof.
  apply (proj1 (escapeHtml_loses_nothing
                  (lit "a&b") (lit "a" ++ [AMP] ++ lit "b"))).
  reflexivity.
Defined.

(** X2: the escaper returns a text as it is exactly when the text holds
    none of [&], [<], [>] and U+00A0, and escaping an escaped text again
    changes it exactly when the text holds one of them: a second pass
    escapes the [&] of the references written by the first. *)
Theorem escapeHtml_twice (text : str) :
  (escapeHtml text = text <-> existsb isSpecial text = false)
  /\ (escapeHtml (escapeHtml text) = escapeHtml text
      <-> existsb isSpecial text = false)
  /\ escapeHtml (escapeHtml (lit "a<b")) = lit "a&amp;lt;b".
Proof.
  split; [apply escapeHtml_fixed|]. split; [|reflexivity].
  rewrite <- escapeHtml_fixed. split.
  - apply escapeHtml_injective.
  - intro E. rewrite E. exact E.
Qed.

Lemma escapeHtml_twice_witness :
  existsb isSpecial (lit "it's fine") = false
  /\ escapeHtml (lit "it's fine") = lit "it's fine"
  /\ escapeHtml (escapeHtml (lit "it's fine")) = escapeHtml (lit "it's fine").
Proof.
  split; [reflexivity|].
  split.
  - exact (proj2 (proj1 (escapeHtml_twice (lit "it's fine"))) eq_refl).
  - exact (proj2 (proj1 (proj2 (escapeHtml_twice (lit "it's fine")))) eq_refl).
Defined.

(** ** The matcher: which run a quantifier takes *)

(** A greedy quantifier takes the whole run of its class when the run
    fits its bounds and the rest of the expression succeeds after it. *)
Lemma rep_greedy_longest (p : char -> bool) (k : matcher)
    (pre post : str) (ms : marks) (r : matchResult) :
  forall lo hi prev,
    forallb p pre = true ->
    (forall c, hd_error post = Some c -> p c = false) ->
    lo <= length pre ->
    (forall h, hi = Some h -> length pre <= h) ->
    k (prevAfter prev pre) post ms = Some r ->
    rep true p k lo hi prev (pre ++ post) ms = Some r.
Proof.
  induction pre as [|c pre IH]; intros lo hi prev Hp Hpost Hlo Hhi Hk.
  - simpl in Hlo. assert (lo = 0) as -> by lia.
    destruct post as [|d post]; simpl; [exact Hk|].
    rewrite (Hpost d eq_refl). exact Hk.
  - simpl in Hp. apply andb_true_iff in Hp as [Hc Hp].
    rewrite prevAfter_cons in Hk.
    assert (Hcan : canRepeat hi = true).
    { destruct hi as [[|h]|]; try reflexivity.
      specialize (Hhi 0 eq_refl). simpl in Hhi. lia. }
    change ((c :: pre) ++ post) with (c :: (pre ++ post)).
    cbn [rep]. rewrite Hc, Hcan. cbn [andb].
    rewrite (IH (pred lo) (option_map pred hi) (Some c) Hp Hpost).
    + reflexivity.
    + simpl in Hlo. lia.
    + intros h Hh. destruct hi as [h0|]; [|discriminate].
      injection Hh as <-. specialize (Hhi h0 eq_refl). simpl in Hhi. lia.
    + exact Hk.
Qed.

(** A lazy quantifier without upper bound takes the shortest run after
    which the rest of the expression succeeds. *)
Lemma rep_lazy_shortest (p : char -> bool) (k : matcher)
    (pre post : str) (ms : marks) (r : matchResult) :
  forall lo prev,
    forallb p pre = true ->
    lo <= length pre ->
    (forall pre1 pre2,
        pre = pre1 ++ pre2 -> pre2 <> [] ->
        k (prevAfter prev pre1) (pre2 ++ post) ms = None) ->
    k (prevAfter prev pre) post ms = Some r ->
    rep false p k lo None prev (pre ++ post) ms = Some r.
Proof.
  induction pre as [|c pre IH]; intros lo prev Hp Hlo Hshort Hk.
  - simpl in Hlo. assert (lo = 0) as -> by lia.
    destruct post as [|d post]; simpl; [exact Hk|].
    change (prevAfter prev []) with prev in Hk. rewrite Hk. reflexivity.
  - simpl in Hp. apply andb_true_iff in Hp as [Hc Hp].
    rewrite prevAfter_cons in Hk.
    change ((c :: pre) ++ post) with (c :: (pre ++ post)).
    cbn [rep]. rewrite Hc. cbn [andb canRepeat option_map].
    assert (Hstop : (if Nat.eqb lo 0
                     then k prev (c :: pre ++ post) ms else None) = None).
    { destruct (Nat.eqb lo 0); [|reflexivity].
      apply (Hshort [] (c :: pre)); [reflexivity|discriminate]. }
    rewrite Hstop. apply IH; [exact Hp|simpl in Hlo; lia| |exact Hk].
    intros pre1 pre2 -> Hne. rewrite <- (prevAfter_cons prev c pre1).
    apply (Hshort (c :: pre1) pre2); [reflexivity|exact Hne].
Qed.

(** With an upper bound, a quantifier that succeeds has read no more. *)
Lemma rep_sound_bound (g : bool) (p : char -> bool) (k : matcher)
    (s : str) (ms : marks) (r : matchResult) :
  forall lo h prev,
    rep g p k lo (Some h) prev s ms = Some r ->
    exists pre post,
      s = pre ++ post /\ forallb p pre = true
      /\ lo <= length pre /\ length pre <= h
      /\ k (prevAfter prev pre) post ms = Some r.
Proof.
  induction s as [|c s IH]; intros lo h prev H.
  - simpl in H. destruct (Nat.eqb_spec lo 0) as [->|]; [|discriminate].
    exists [], []. repeat split; auto. simpl. lia.
  - assert (Hstop : (if Nat.eqb lo 0 then k prev (c :: s) ms else None)
                    = Some r ->
                    exists pre post,
                      c :: s = pre ++ post /\ forallb p pre = true
                      /\ lo <= length pre /\ length pre <= h
                      /\ k (prevAfter prev pre) post ms = Some r).
    { intro E. destruct (Nat.eqb_spec lo 0) as [->|]; [|discriminate].
      exists [], (c :: s). repeat split; auto. simpl. lia. }
    assert (Hmore : (if p c && canRepeat (Some h)
                     then rep g p k (pred lo) (option_map pred (Some h))
                              (Some c) s ms
                     else None) = Some r ->
                    exists pre post,
                      c :: s = pre ++ post /\ forallb p pre = true
                      /\ lo <= length pre /\ length pre <= h
                      /\ k (prevAfter prev pre) post ms = Some r).
    { intro E. destruct (p c) eqn:Ep; [|discriminate].
      destruct h as [|h]; [discriminate|]. simpl in E.
      apply IH in E as (pre & post & -> & Hp & Hlo & Hlen & Hk).
      exists (c :: pre), post. rewrite prevAfter_cons. simpl.
      rewrite Ep, Hp. repeat split; auto; lia. }
    cbn [rep] in H. destruct g.
    + destruct (if p c && canRepeat (Some h) then _ else None) eqn:E.
      * injection H as <-. auto.
      * auto.
    + destruct (if Nat.eqb lo 0 then _ else None) eqn:E.
      * injection H as <-. auto.
      * auto.
Qed.

Lemma rep_greedy_all (p : char -> bool) (k : matcher)
    (s : str) (ms : marks) (r : matchResult) (lo : nat)
    (prev : option char) :
  forallb p s = true -> lo <= length s ->
  k (prevAfter prev s) [] ms = Some r ->
  rep true p k lo None prev s ms = Some r.
Proof.
  intros Hp Hlo Hk. rewrite <- (app_nil_r s) at 1.
  apply rep_greedy_longest; auto; discriminate.
Qed.

Lemma between_nil (t : str) : between t [] = t.
Proof. unfold between. simpl. rewrite Nat.sub_0_r. apply firstn_all. Qed.

Lemma forallb_repeat (p : char -> bool) (c : char) (k : nat) :
  p c = true -> forallb p (repeat c k) = true.
Proof. intro H. induction k; simpl; [reflexivity|]. rewrite H. exact IHk. Qed.

Lemma length_not_nil (s : str) : s <> [] -> 1 <= length s.
Proof. destruct s; [congruence|simpl; lia]. Qed.

(** ** Heading lines *)

Lemma search_heading (k : nat) (w t : str) :
  1 <= k <= 6 ->
  w <> [] -> forallb isSpace w = true ->
  t <> [] -> forallb isDot t = true -> firstNotSpace t ->
  search reHeading None (repeat HASH k ++ w ++ t)
  = Some ([[]; t; w ++ t; repeat HASH k ++ w ++ t], []).
Proof.
  intros Hk Hw Hws Ht Htd Hts. unfold reHeading.
  rewrite search_anchored. cbn [run].
  change (step Open ?k ?p ?s ?m) with (k p s (s :: m)).
  change (step (Rep ?g ?lo ?hi ?p) ?k) with (rep g p k lo hi).
  apply rep_greedy_longest.
  - apply forallb_repeat. reflexivity.
  - destruct w as [|c w]; [congruence|]. intros c' [= <-].
    simpl in Hws. apply andb_true_iff in Hws as [Hc _].
    apply space_is_no_mark in Hc. tauto.
  - rewrite repeat_length. lia.
  - intros h [= <-]. rewrite repeat_length. lia.
  - change (step Close ?k ?p ?s ?m) with (k p s (s :: m)).
    change (step (Rep ?g ?lo ?hi ?p) ?k) with (rep g p k lo hi).
    apply rep_greedy_longest.
    + exact Hws.
    + exact Hts.
    + apply length_not_nil, Hw.
    + discriminate.
    + change (step Open ?k ?p ?s ?m) with (k p s (s :: m)).
      change (step (Rep ?g ?lo ?hi ?p) ?k) with (rep g p k lo hi).
      apply rep_greedy_all; [exact Htd|apply length_not_nil, Ht|].
      reflexivity.
Qed.

Lemma repeat_split (c : char) (k : nat) (rest pre post : str) :
  repeat c k ++ rest = pre ++ post -> length pre < k ->
  exists post', post = c :: post'.
Proof.
  revert pre. induction k as [|k IH]; intros pre H Hlen; [lia|].
  destruct pre as [|x pre]; simpl in H.
  - exists (repeat c k ++ rest). symmetry. exact H.
  - injection H as _ H. apply (IH pre H). simpl in Hlen. lia.
Qed.

Lemma search_heading_too_deep (k : nat) (rest : str) :
  6 < k -> search reHeading None (repeat HASH k ++ rest) = None.
Proof.
  intro Hk. unfold reHeading. rewrite search_anchored. cbn [run].
  change (step Open ?k ?p ?s ?m) with (k p s (s :: m)).
  change (step (Rep ?g ?lo ?hi ?p) ?k) with (rep g p k lo hi).
  match goal with |- ?x = None => destruct x as [r|] eqn:E end;
    [exfalso|reflexivity].
  apply rep_sound_bound in E as (pre & post & Hs & _ & _ & Hlen & E).
  apply repeat_split in Hs as [post' ->]; [|lia].
  change (step Close ?k ?p ?s ?m) with (k p s (s :: m)) in E.
  change (step (Rep ?g ?lo ?hi ?p) ?k) with (rep g p k lo hi) in E.
  rewrite rep_first in E; [discriminate|lia|reflexivity].
Qed.

Lemma search_heading_needs_hash (line : str) :
  (forall c, hd_error line = Some c -> isHash c = false) ->
  search reHeading None line = None.
Proof.
  intro H. unfold reHeading. rewrite search_anchored. cbn [run].
  change (step Open ?k ?p ?s ?m) with (k p s (s :: m)).
  apply rep_first; [lia|].
  destruct line as [|c line]; [exact I|]. apply H. reflexivity.
Qed.

Lemma search_bullet_needs_mark (c : char) (line : str) :
  isSpace c = false -> isBulletMark c = false ->
  search reBullet None (c :: line) = None.
Proof.
  intros Hs Hm. unfold reBullet. rewrite search_anchored. cbn [run].
  change (step (Rep ?g ?lo ?hi ?p) ?k) with (rep g p k lo hi).
  match goal with |- ?x = None => destruct x as [r|] eqn:E end;
    [exfalso|reflexivity].
  apply rep_sound in E as (pre & post & Hl & Hp & _ & E).
  destruct pre as [|x pre]; simpl in Hl.
  - subst post. simpl in E. rewrite Hm in E. discriminate.
  - injection Hl as <- _. simpl in Hp. rewrite Hs in Hp. discriminate.
Qed.

(** X3: a line of one to six [#], white space and a text that starts
    with no white space and holds no line terminator is a heading of the
    level given by the number of [#]: the loop closes an open list,
    writes the formatted text inside the heading tags of that level and
    no break after it.  A line that starts with seven or more [#] is no
    heading: it is written as a regular line, hashes and all. *)
Theorem heading_levels (k : nat) (w t : str) (inList : bool)
    (rest : list str) :
  w <> [] -> forallb isSpace w = true ->
  t <> [] -> forallb isDot t = true -> firstNotSpace t ->
  (1 <= k <= 6 ->
   formatLines inList ((repeat HASH k ++ w ++ t) :: rest)
   = closeList inList
     ++ lit "<h" ++ decimal (N.of_nat k) ++ lit ">"
     ++ applyInlineFormatting t
     ++ lit "</h" ++ decimal (N.of_nat k) ++ lit ">"
     ++ formatLines false rest)
  /\ (6 < k ->
      formatLines inList [repeat HASH k ++ w ++ t]
      = closeList inList
        ++ applyInlineFormatting (repeat HASH k ++ w ++ t)).
Proof.
  intros Hw Hws Ht Htd Hts. split; intro Hk.
  - cbn [formatLines].
    rewrite (search_heading k w t Hk Hw Hws Ht Htd Hts).
    replace (group 1 [[]; t; w ++ t; repeat HASH k ++ w ++ t])
      with (repeat HASH k)
      by (unfold group; simpl; symmetry; apply between_app).
    replace (group 2 [[]; t; w ++ t; repeat HASH k ++ w ++ t]) with t
      by (unfold group; simpl; symmetry; apply between_nil).
    rewrite repeat_length. reflexivity.
  - rewrite formatLines_regular.
    + simpl. rewrite !app_nil_r. reflexivity.
    + apply search_heading_too_deep, Hk.
    + destruct k as [|k]; [lia|]. apply search_bullet_needs_mark;
        reflexivity.
Qed.

Lemma heading_levels_witness :
  formatLines true [lit "###  Care *tips*"; lit "next"]
  = lit "</ul><h3>Care <em>tips</em></h3>next"
  /\ formatLines false [lit "####### deep"] = lit "####### deep".
Proof.
  split.
  - apply (proj1 (heading_levels 3 (lit "  ") (lit "Care *tips*") true
                    [lit "next"]
                    ltac:(discriminate) eq_refl ltac:(discriminate) eq_refl
                    ltac:(intros c [= <-]; reflexivity)));
      lia.
  - apply (proj2 (heading_levels 7 (lit " ") (lit "deep") false []
                    ltac:(discriminate) eq_refl ltac:(discriminate) eq_refl
                    ltac:(intros c [= <-]; reflexivity)));
      lia.
Defined.

(** ** Bullet lines *)

Lemma mark_is_no_space (c : char) :
  isBulletMark c = true -> isSpace c = false /\ isHash c = false.
Proof.
  unfold isBulletMark. rewrite !orb_true_iff, !chr_is_true.
  intros [[-> | ->] | ->]; split; reflexivity.
Qed.

Lemma search_bullet (indent w t : str) (mark : char) :
  forallb isSpace indent = true -> isBulletMark mark = true ->
  w <> [] -> forallb isSpace w = true ->
  forallb isDot t = true -> firstNotSpace t ->
  search reBullet None (indent ++ mark :: w ++ t)
  = Some ([[]; t; w ++ t; mark :: w ++ t], []).
Proof.
  intros Hi Hm Hw Hws Htd Hts. unfold reBullet.
  rewrite search_anchored. cbn [run].
  change (step (Rep ?g ?lo ?hi ?p) ?k) with (rep g p k lo hi).
  apply rep_greedy_longest.
  - exact Hi.
  - intros c [= <-]. apply mark_is_no_space, Hm.
  - lia.
  - discriminate.
  - change (step Open ?k ?p ?s ?m) with (k p s (s :: m)).
    cbn [step]. rewrite Hm.
    change (rep true isSpace ?k 1 None ?p ?s (?s :: ?m))
      with (rep true isSpace k 1 None p s (s :: m)).
    apply rep_greedy_longest.
    + exact Hws.
    + exact Hts.
    + apply length_not_nil, Hw.
    + discriminate.
    + apply rep_greedy_all; [exact Htd|lia|]. reflexivity.
Qed.

(** X4: a line of optional white space, one of [-], [*], [+], white
    space and a text (possibly empty) that starts with no white space
    and holds no line terminator is a bullet: the loop opens a list
    unless one is open, writes the formatted text as one item, keeps the
    list open for the next line and writes no break; so consecutive
    bullets share one list, which the next regular line or the end
    closes. *)
Theorem bullet_items (indent w t : str) (mark : char) (inList : bool)
    (rest : list str) :
  forallb isSpace indent = true -> isBulletMark mark = true ->
  w <> [] -> forallb isSpace w = true ->
  forallb isDot t = true -> firstNotSpace t ->
  formatLines inList ((indent ++ mark :: w ++ t) :: rest)
  = openList inList
    ++ lit "<li>" ++ applyInlineFormatting t ++ lit "</li>"
    ++ formatLines true rest.
Proof.
  intros Hi Hm Hw Hws Htd Hts. cbn [formatLines].
  rewrite search_heading_needs_hash.
  - rewrite (search_bullet indent w t mark Hi Hm Hw Hws Htd Hts).
    replace (group 2 [[]; t; w ++ t; mark :: w ++ t]) with t
      by (unfold group; simpl; symmetry; apply between_nil).
    reflexivity.
  - destruct indent as [|c indent]; intros c' [= <-].
    + apply mark_is_no_space, Hm.
    + simpl in Hi. apply andb_true_iff in Hi as [Hc _].
      apply space_is_no_mark in Hc. tauto.
Qed.

Lemma bullet_items_witness :
  formatLines false [lit "  * one"; lit "+ **two**"; lit "-  "]
  = lit "<ul><li>one</li><li><strong>two</strong></li><li></li></ul>".
Proof.
  rewrite (bullet_items (lit "  ") (lit " ") (lit "one") 42%N false _
             eq_refl eq_refl ltac:(discriminate) eq_refl eq_refl
             ltac:(intros c [= <-]; reflexivity)).
  rewrite (bullet_items [] (lit " ") (lit "**two**") 43%N true _
             eq_refl eq_refl ltac:(discriminate) eq_refl eq_refl
             ltac:(intros c [= <-]; reflexivity)).
  rewrite (bullet_items [] (lit "  ") [] 45%N true _
             eq_refl eq_refl ltac:(discriminate) eq_refl eq_refl
             ltac:(discriminate)).
  reflexivity.
Defined.

(** ** Emphasis spans *)

Lemma prevAfter_app (prev : option char) (a b : str) :
  prevAfter prev (a ++ b) = prevAfter (prevAfter prev a) b.
Proof.
  revert prev. induction a as [|c a IH]; intro prev; [reflexivity|].
  change ((c :: a) ++ b) with (c :: (a ++ b)).
  rewrite !prevAfter_cons. apply IH.
Qed.

Lemma prevAfter_in (prev : option char) (a : str) (m : char) :
  prev <> Some m -> ~ In m a -> prevAfter prev a <> Some m.
Proof.
  revert prev. induction a as [|c a IH]; intros prev Hp Ha; [exact Hp|].
  rewrite prevAfter_cons. apply IH.
  - intros [= ->]. apply Ha. left. reflexivity.
  - intro H. apply Ha. right. exact H.
Qed.

(** The code units of a match are passed over. *)
Lemma replaceFrom_skip (r : regex) (f : marks -> str) (m s : str) :
  forall prev,
    replaceFrom r f prev (m ++ s) (length m)
    = replaceFrom r f (prevAfter prev m) s 0.
Proof.
  induction m as [|c m IH]; intro prev; [reflexivity|].
  rewrite prevAfter_cons. simpl. apply IH.
Qed.

(** The code units before the first match are copied. *)
Lemma replaceFrom_copy (r : regex) (f : marks -> str) (a s : str) :
  forall prev,
    (forall a1 a2 prev',
        a = a1 ++ a2 -> a2 <> [] -> run r prev' (a2 ++ s) [] = None) ->
    replaceFrom r f prev (a ++ s) 0
    = a ++ replaceFrom r f (prevAfter prev a) s 0.
Proof.
  induction a as [|c a IH]; intros prev H; [reflexivity|].
  change ((c :: a) ++ s) with (c :: (a ++ s)).
  rewrite replaceFrom_cons.
  assert (H0 : run r prev (c :: a ++ s) [] = None)
    by (apply (H [] (c :: a) prev eq_refl); discriminate).
  rewrite H0, prevAfter_cons. simpl. f_equal. apply IH.
  intros a1 a2 prev' -> Hne. apply (H (c :: a1) a2); [reflexivity|exact Hne].
Qed.

(** A match of [n] code units at the head is replaced, and the loop goes
    on behind it. *)
Lemma replaceFrom_match (r : regex) (f : marks -> str) prev
    (c : char) (m rest : str) (ms : marks) :
  run r prev (c :: m ++ rest) [] = Some (ms, rest) ->
  replaceFrom r f prev (c :: m ++ rest) 0
  = f ms ++ replaceFrom r f (prevAfter prev (c :: m)) rest 0.
Proof.
  intro H. rewrite replaceFrom_cons, H.
  replace (length (c :: m ++ rest) - length rest) with (S (length m)).
  2: { change (length (c :: m ++ rest)) with (S (length (m ++ rest))).
       rewrite length_app.
       generalize (length m), (length rest). intros n1 n2. lia. }
  rewrite replaceFrom_skip, prevAfter_cons. reflexivity.
Qed.

Lemma run_needs_head (p : char -> bool) (r : regex) prev (s : str)
    (ms : marks) :
  (forall c, hd_error s = Some c -> p c = false) ->
  run (Chr p :: r) prev s ms = None.
Proof.
  intro H. destruct s as [|c s]; [reflexivity|].
  simpl. rewrite (H c eq_refl). reflexivity.
Qed.

Lemma run_reItalic_needs_head (m : char) prev (s : str) (ms : marks) :
  (forall c, hd_error s = Some c -> chr_is m c = false) ->
  run (reItalic m) prev s ms = None.
Proof.
  intro H. unfold reItalic. cbn [run].
  destruct prev as [d|]; cbn [step]; [destruct (chr_is m d)|];
    try reflexivity;
    (destruct s as [|c s]; [reflexivity|]; rewrite (H c eq_refl);
     reflexivity).
Qed.

Lemma not_in_head (m : char) (a2 s : str) :
  ~ In m a2 -> a2 <> [] ->
  forall c, hd_error (a2 ++ s) = Some c -> chr_is m c = false.
Proof.
  intros Hin Hne c Hc. destruct a2 as [|x a2]; [congruence|].
  injection Hc as <-. apply chr_is_false. intros ->. apply Hin.
  left. reflexivity.
Qed.

Lemma not_in_suffix (m : char) (a1 a2 : str) :
  ~ In m (a1 ++ a2) -> ~ In m a2.
Proof. intros H Hin. apply H, in_or_app. right. exact Hin. Qed.

Lemma not_in_unmatched (r : regex) (m : char) (b : str) :
  (forall prev s ms,
      (forall c, hd_error s = Some c -> chr_is m c = false) ->
      run r prev s ms = None) ->
  ~ In m b ->
  forall pre t prev', b = pre ++ t -> run r prev' t [] = None.
Proof.
  intros Hr Hb pre t prev' ->. apply Hr.
  intros c Hc. destruct t as [|x t]; [discriminate|].
  injection Hc as <-. apply chr_is_false. intros ->. apply Hb.
  apply in_or_app. right. left. reflexivity.
Qed.

(** The italic expression on a marked span. *)
Lemma run_reItalic_span (m : char) prev (x b : str) :
  prev <> Some m -> x <> [] -> ~ In m x -> ~ In m b ->
  run (reItalic m) prev (m :: x ++ m :: b) []
  = Some ([m :: b; x ++ m :: b], b).
Proof.
  intros Hp Hx Hxm Hb. unfold reItalic. cbn [run].
  assert (Hmm : chr_is m m = true) by (apply chr_is_true; reflexivity).
  assert (Hhead : forall (y : str) c,
             ~ In m y -> hd_error y = Some c -> chr_is m c = false).
  { intros y c Hy Hc. destruct y as [|d y]; [discriminate|].
    injection Hc as <-. apply chr_is_false. intros ->. apply Hy.
    left. reflexivity. }
  assert (Hbehind : forall (k : matcher) s ms,
             step (NotBehind (chr_is m)) k prev s ms = k prev s ms).
  { intros k s ms. destruct prev as [d|]; cbn [step]; [|reflexivity].
    destruct (chr_is m d) eqn:E; [|reflexivity].
    apply chr_is_true in E. congruence. }
  rewrite Hbehind. cbn [step]. rewrite Hmm.
  destruct x as [|x0 x]; [congruence|].
  change ((x0 :: x) ++ m :: b) with (x0 :: (x ++ m :: b)).
  cbv iota. rewrite (Hhead (x0 :: x) x0 Hxm eq_refl).
  change (x0 :: (x ++ m :: b)) with ((x0 :: x) ++ m :: b).
  apply rep_lazy_shortest.
  - apply forallb_forall. intros c Hc. apply negb_true_iff, chr_is_false.
    intros ->. contradiction.
  - simpl. lia.
  - intros pre1 pre2 E Hne. destruct pre2 as [|c pre2]; [congruence|].
    change ((c :: pre2) ++ m :: b) with (c :: (pre2 ++ m :: b)).
    cbn. replace (chr_is m c) with false; [reflexivity|].
    symmetry. apply chr_is_false. intros ->. apply Hxm. rewrite E.
    apply in_or_app. right. left. reflexivity.
  - cbn. rewrite Hmm. destruct b as [|d b]; [reflexivity|].
    rewrite (Hhead (d :: b) d Hb eq_refl). reflexivity.
Qed.

Lemma run_reBold_span prev (x b : str) :
  x <> [] -> ~ In STAR x -> forallb isDot x = true ->
  run reBold prev (STAR :: STAR :: x ++ STAR :: STAR :: b) []
  = Some ([STAR :: STAR :: b; x ++ STAR :: STAR :: b], b).
Proof.
  intros Hx Hxs Hd. unfold reBold. cbn [run]. cbn [step].
  change (isStar STAR) with true. cbv iota.
  apply rep_lazy_shortest.
  - exact Hd.
  - apply length_not_nil, Hx.
  - intros pre1 pre2 E Hne. destruct pre2 as [|c pre2]; [congruence|].
    change ((c :: pre2) ++ STAR :: STAR :: b)
      with (c :: (pre2 ++ STAR :: STAR :: b)).
    cbn [step]. replace (isStar c) with false; [reflexivity|].
    symmetry. apply chr_is_false. intros ->. apply Hxs. rewrite E.
    apply in_or_app. right. left. reflexivity.
  - reflexivity.
Qed.

Lemma run_reBold_needs_head prev (s : str) (ms : marks) :
  (forall c, hd_error s = Some c -> chr_is STAR c = false) ->
  run reBold prev s ms = None.
Proof. intro H. unfold reBold. apply run_needs_head. exact H. Qed.

Lemma replace_bold_span (a x b : str) :
  ~ In STAR a -> x <> [] -> ~ In STAR x -> forallb isDot x = true ->
  ~ In STAR b ->
  replaceAll reBold strong (a ++ STAR :: STAR :: x ++ STAR :: STAR :: b)
  = a ++ lit "<strong>" ++ x ++ lit "</strong>" ++ b.
Proof.
  intros Ha Hx Hxs Hd Hb. unfold replaceAll.
  rewrite replaceFrom_copy.
  2: { intros a1 a2 prev' E Hne. apply run_reBold_needs_head.
       apply (not_in_head STAR a2); [|exact Hne].
       rewrite E in Ha. eapply not_in_suffix, Ha. }
  f_equal.
  assert (Heq : STAR :: (STAR :: x ++ [STAR; STAR]) ++ b
                = STAR :: STAR :: x ++ STAR :: STAR :: b)
    by (simpl; rewrite <- app_assoc; reflexivity).
  rewrite <- Heq.
  rewrite (replaceFrom_match reBold strong _ STAR
             (STAR :: x ++ [STAR; STAR]) b
             [STAR :: STAR :: b; x ++ STAR :: STAR :: b]).
  2: { rewrite Heq. apply run_reBold_span; assumption. }
  unfold strong. rewrite group_1_two_marks.
  rewrite replaceFrom_unmatched.
  - rewrite <- !app_assoc. reflexivity.
  - apply (not_in_unmatched reBold STAR); [|exact Hb].
    intros. apply run_reBold_needs_head. assumption.
Qed.

Lemma replace_italic_span (m : char) (a x b : str) :
  ~ In m a -> x <> [] -> ~ In m x -> ~ In m b ->
  replaceAll (reItalic m) em (a ++ m :: x ++ m :: b)
  = a ++ lit "<em>" ++ x ++ lit "</em>" ++ b.
Proof.
  intros Ha Hx Hxm Hb. unfold replaceAll.
  rewrite replaceFrom_copy.
  2: { intros a1 a2 prev' E Hne. apply run_reItalic_needs_head.
       apply (not_in_head m a2); [|exact Hne].
       rewrite E in Ha. eapply not_in_suffix, Ha. }
  f_equal.
  assert (Heq : m :: (x ++ [m]) ++ b = m :: x ++ m :: b)
    by (rewrite <- app_assoc; reflexivity).
  rewrite <- Heq.
  rewrite (replaceFrom_match (reItalic m) em _ m (x ++ [m]) b
             [m :: b; x ++ m :: b]).
  2: { rewrite Heq. apply run_reItalic_span; try assumption.
       apply prevAfter_in; [discriminate|exact Ha]. }
  unfold em. rewrite group_1_two_marks.
  rewrite replaceFrom_unmatched.
  - rewrite <- !app_assoc. reflexivity.
  - apply (not_in_unmatched (reItalic m) m); [|exact Hb].
    intros. apply run_reItalic_needs_head. assumption.
Qed.

Lemma count_lt_of_not_in (m : char) (n : nat) (s : str) :
  ~ In m s -> count_occ N.eq_dec s m < S n.
Proof.
  intro H. apply (count_occ_not_In N.eq_dec) in H.
  unfold str, char in *. rewrite H. apply Nat.lt_0_succ.
Qed.

Lemma not_in_app3 (m : char) (a t1 x t2 b : str) :
  ~ In m a -> ~ In m t1 -> ~ In m x -> ~ In m t2 -> ~ In m b ->
  ~ In m (a ++ t1 ++ x ++ t2 ++ b).
Proof.
  intros Ha H1 Hx H2 Hb H.
  repeat (apply in_app_or in H as [H|H]; [contradiction|]).
  contradiction.
Qed.

Lemma not_in_marked (m c : char) (a x b : str) :
  m <> c -> ~ In c a -> ~ In c x -> ~ In c b ->
  ~ In c (a ++ m :: x ++ m :: b).
Proof.
  intros Hm Ha Hx Hb H.
  apply in_app_or in H as [H|[H|H]]; try contradiction.
  apply in_app_or in H as [H|[H|H]]; contradiction.
Qed.

Lemma replace_identity_without (r : regex) (f : marks -> str)
    (m : char) (s : str) :
  (forall prev t ms res,
      run r prev t ms = Some res -> 2 <= count_occ N.eq_dec t m) ->
  ~ In m s -> replaceAll r f s = s.
Proof.
  intros Hr Hs. apply (replace_few_markers r f m 2); [exact Hr|].
  apply count_lt_of_not_in, Hs.
Qed.

(** X5: in a line with no other asterisk or underscore, a non-empty text
    that holds no line terminator, between two double asterisks, is
    wrapped in strong emphasis, and a non-empty text (line terminators
    allowed) between two single asterisks or between two underscores in
    standard emphasis; the markers go, the text around stays, also where
    the underscores stand inside a word. *)
Theorem emphasis_spans (a x b : str) :
  ~ In STAR a -> ~ In UNDERSCORE a ->
  ~ In STAR x -> ~ In UNDERSCORE x -> x <> [] ->
  ~ In STAR b -> ~ In UNDERSCORE b ->
  (forallb isDot x = true ->
   applyInlineFormatting (a ++ STAR :: STAR :: x ++ STAR :: STAR :: b)
   = a ++ lit "<strong>" ++ x ++ lit "</strong>" ++ b)
  /\ applyInlineFormatting (a ++ STAR :: x ++ STAR :: b)
     = a ++ lit "<em>" ++ x ++ lit "</em>" ++ b
  /\ applyInlineFormatting (a ++ UNDERSCORE :: x ++ UNDERSCORE :: b)
     = a ++ lit "<em>" ++ x ++ lit "</em>" ++ b.
Proof.
  intros Has Hau Hxs Hxu Hx Hbs Hbu.
  assert (Hitalic : forall m prev t ms res,
             run (reItalic m) prev t ms = Some res ->
             2 <= count_occ N.eq_dec t m)
    by (intros; eapply run_reItalic_two_markers; eassumption).
  assert (Hout : forall m t1 t2,
             ~ In m a -> ~ In m x -> ~ In m b ->
             ~ In m t1 -> ~ In m t2 ->
             ~ In m (a ++ t1 ++ x ++ t2 ++ b))
    by (intros; apply not_in_app3; assumption).
  assert (Hstrong : ~ In STAR (lit "<strong>")
                    /\ ~ In STAR (lit "</strong>")
                    /\ ~ In UNDERSCORE (lit "<strong>")
                    /\ ~ In UNDERSCORE (lit "</strong>")
                    /\ ~ In STAR (lit "<em>") /\ ~ In STAR (lit "</em>")
                    /\ ~ In UNDERSCORE (lit "<em>")
                    /\ ~ In UNDERSCORE (lit "</em>"))
    by (vm_compute; intuition discriminate).
  destruct Hstrong as (S1 & S2 & S3 & S4 & E1 & E2 & E3 & E4).
  split; [|split]; unfold applyInlineFormatting.
  - intro Hd. rewrite replace_bold_span by assumption.
    rewrite (replace_identity_without reItalicStar em STAR)
      by (auto; apply Hitalic).
    apply (replace_identity_without reItalicUnderscore em UNDERSCORE);
      [apply Hitalic|auto].
  - rewrite (replace_few_markers reBold strong STAR 4);
      [|intros; eapply run_reBold_four_stars; eassumption
       |eapply Nat.le_lt_trans;
        [|apply Nat.lt_succ_diag_r]].
    2: { unfold str, char in *. rewrite count_occ_app.
         rewrite (proj1 (count_occ_not_In N.eq_dec a STAR) Has).
         rewrite count_occ_cons_eq by reflexivity.
         rewrite count_occ_app.
         rewrite (proj1 (count_occ_not_In N.eq_dec x STAR) Hxs).
         rewrite count_occ_cons_eq by reflexivity.
         rewrite (proj1 (count_occ_not_In N.eq_dec b STAR) Hbs).
         simpl. auto. }
    unfold reItalicStar. rewrite replace_italic_span by assumption.
    apply (replace_identity_without reItalicUnderscore em UNDERSCORE);
      [apply Hitalic|auto].
  - rewrite (replace_identity_without reBold strong STAR);
      [|intros; eapply run_reBold_two_stars; eassumption
       |apply not_in_marked; [discriminate|assumption..]].
    rewrite (replace_identity_without reItalicStar em STAR);
      [|apply Hitalic
       |apply not_in_marked; [discriminate|assumption..]].
    unfold reItalicUnderscore. apply replace_italic_span; assumption.
Qed.

Lemma emphasis_spans_witness :
  applyInlineFormatting (lit "use **twice a day** only")
  = lit "use <strong>twice a day</strong> only"
  /\ applyInlineFormatting (lit "snake_case_name")
     = lit "snake<em>case</em>name".
Proof.
  split.
  - apply (emphasis_spans (lit "use ") (lit "twice a day") (lit " only"));
      vm_compute; intuition discriminate.
  - apply (emphasis_spans (lit "snake") (lit "case") (lit "name"));
      vm_compute; intuition discriminate.
Defined.

(** ** Plain prose *)

Lemma splitFrom_cons (r : regex) prev (c : char) (s : str) :
  splitFrom r prev (c :: s) 0
  = match run r prev (c :: s) [] with
    | Some (_, rest) =>
        match length (c :: s) - length rest with
        | O => addToPiece c (splitFrom r (Some c) s 0)
        | S n => [] :: splitFrom r (Some c) s n
        end
    | None => addToPiece c (splitFrom r (Some c) s 0)
    end.
Proof. reflexivity. Qed.

Lemma run_reNewline_other prev (c : char) (s : str) :
  chr_is CR c = false -> chr_is LF c = false ->
  run reNewline prev (c :: s) [] = None.
Proof.
  intros Hcr Hlf. unfold reNewline. cbn [run step rep].
  rewrite Hcr, Hlf. reflexivity.
Qed.

Lemma run_reNewline_LF prev (s : str) :
  run reNewline prev (LF :: s) [] = Some ([], s).
Proof. reflexivity. Qed.

Lemma run_reNewline_CRLF prev (s : str) :
  run reNewline prev (CR :: LF :: s) [] = Some ([], s).
Proof. reflexivity. Qed.

Lemma length_minus_1 (c : char) (s : str) :
  length (c :: s) - length s = 1.
Proof. simpl length. generalize (length s). intro n. lia. Qed.

Lemma length_minus_2 (c d : char) (s : str) :
  length (c :: d :: s) - length s = 2.
Proof. simpl length. generalize (length s). intro n. lia. Qed.

(** A line without line terminator in front of a line feed, or of a
    carriage return and a line feed, is one piece. *)
Lemma splitFrom_line (l rest : str) (crlf : bool) :
  existsb isLineTerminator l = false ->
  forall prev,
    splitFrom reNewline prev
      (l ++ (if crlf then [CR; LF] else [LF]) ++ rest) 0
    = l :: splitFrom reNewline (Some LF) rest 0.
Proof.
  induction l as [|c l IH]; intros Hl prev.
  - destruct crlf; cbn [app].
    + rewrite splitFrom_cons, run_reNewline_CRLF, length_minus_2.
      reflexivity.
    + rewrite splitFrom_cons, run_reNewline_LF, length_minus_1.
      reflexivity.
  - simpl in Hl. apply orb_false_iff in Hl as [Hc Hl].
    unfold isLineTerminator in Hc. rewrite !orb_false_iff in Hc.
    destruct Hc as [[[Hlf Hcr] _] _].
    change ((c :: l) ++ ?x) with (c :: (l ++ x)).
    rewrite splitFrom_cons, run_reNewline_other by assumption.
    rewrite (IH Hl). reflexivity.
Qed.

Lemma splitFrom_last (l : str) :
  existsb isLineTerminator l = false ->
  forall prev, splitFrom reNewline prev l 0 = [l].
Proof.
  induction l as [|c l IH]; intros Hl prev; [reflexivity|].
  simpl in Hl. apply orb_false_iff in Hl as [Hc Hl].
  unfold isLineTerminator in Hc. rewrite !orb_false_iff in Hc.
  destruct Hc as [[[Hlf Hcr] _] _].
  rewrite splitFrom_cons, run_reNewline_other by assumption.
  rewrite (IH Hl). reflexivity.
Qed.

Lemma split_joined (crlf : bool) (l : str) (lines : list str) :
  forallb (fun l => negb (existsb isLineTerminator l)) (l :: lines) = true ->
  forall prev,
    splitFrom reNewline prev
      (joinWith (if crlf then [CR; LF] else [LF]) (l :: lines)) 0
    = l :: lines.
Proof.
  revert l. induction lines as [|l2 lines IH]; intros l H prev.
  - simpl in H. rewrite andb_true_r in H. apply negb_true_iff in H.
    apply splitFrom_last, H.
  - change (forallb ?f (l :: ?t)) with (f l && forallb f t) in H.
    apply andb_true_iff in H as [Hl H]. apply negb_true_iff in Hl.
    change (joinWith ?sep (l :: l2 :: lines))
      with (l ++ sep ++ joinWith sep (l2 :: lines)).
    rewrite (splitFrom_line l _ crlf Hl). f_equal. apply IH, H.
Qed.

(** The early return of [formatMessage] on the empty text agrees with
    what the loop would give. *)
Lemma formatMessage_lines (text : str) :
  formatMessage text
  = formatLines false (split reNewline (escapeHtml text)).
Proof. destruct text; reflexivity. Qed.

Lemma plain_parts (l : str) :
  isPlainLine l = true ->
  existsb isSpecial l = false
  /\ existsb isLineTerminator l = false
  /\ count_occ N.eq_dec l STAR <= 1
  /\ count_occ N.eq_dec l UNDERSCORE <= 1
  /\ (forallb isSpace l = true \/ startsPlain l = true).
Proof.
  unfold isPlainLine. rewrite !andb_true_iff, !negb_true_iff.
  rewrite orb_true_iff, !Nat.leb_le. tauto.
Qed.

Lemma startsPlain_head (l : str) :
  startsPlain l = true ->
  exists c t, l = c :: t /\ isSpace c = false /\ isHash c = false
              /\ isBulletMark c = false.
Proof.
  destruct l as [|c t]; [discriminate|]. simpl.
  rewrite !andb_true_iff, !negb_true_iff. intros [[H1 H2] H3].
  exists c, t. auto.
Qed.

Lemma plain_regular (l : str) :
  isPlainLine l = true ->
  search reHeading None l = None /\ search reBullet None l = None
  /\ applyInlineFormatting l = l.
Proof.
  intro H. apply plain_parts in H as (_ & _ & Hs & Hu & [Hb|Hp]).
  - split; [apply blank_no_heading, Hb|].
    split; [apply blank_no_bullet, Hb|apply inline_blank, Hb].
  - apply startsPlain_head in Hp as (c & t & -> & H1 & H2 & H3).
    split; [|split].
    + apply search_heading_needs_hash. intros c' [= <-]. exact H2.
    + apply search_bullet_needs_mark; assumption.
    + apply inline_few_markers; assumption.
Qed.

Lemma plain_starts_nothing (l : str) :
  startsPlain l = true ->
  test reHeadingStart l = false /\ test reBulletStart l = false
  /\ forallb isSpace l = false.
Proof.
  intro H. apply startsPlain_head in H as (c & t & -> & H1 & H2 & H3).
  split; [|split].
  - unfold test, reHeadingStart. rewrite search_anchored.
    cbn [run step]. rewrite rep_first; [reflexivity|lia|exact H2].
  - unfold test, reBulletStart. rewrite search_anchored. cbn [run].
    change (step (Rep ?g ?lo ?hi ?p) ?k) with (rep g p k lo hi).
    match goal with
    | |- match ?x with _ => _ end = _ => destruct x as [r|] eqn:E
    end; [exfalso|reflexivity].
    apply rep_sound in E as (pre & post & Hl & Hp & _ & E).
    destruct pre as [|x pre]; simpl in Hl.
    + subst post. simpl in E. rewrite H3 in E. discriminate.
    + injection Hl as <- _. simpl in Hp. rewrite H1 in Hp. discriminate.
  - simpl. rewrite H1. reflexivity.
Qed.

Lemma lineBreak_plain (l next : str) :
  isPlainLine l = true -> isPlainLine next = true ->
  lineBreak l next = lit "<br>".
Proof.
  intros Hl Hn.
  apply plain_parts in Hl as (_ & _ & _ & _ & [Hb|Hp]);
    [apply lineBreak_blank_current, Hb|].
  apply plain_parts in Hn as (_ & _ & _ & _ & [Hb|Hq]);
    [apply lineBreak_blank_next, Hb|].
  apply plain_starts_nothing in Hp as (_ & _ & Hp).
  apply plain_starts_nothing in Hq as (Hh & Hbu & Hq).
  rewrite (lineBreak_not_blank l next Hp Hq), Hh, Hbu. reflexivity.
Qed.

Lemma formatLines_plain (lines : list str) :
  forallb isPlainLine lines = true ->
  formatLines false lines = joinWith (lit "<br>") lines.
Proof.
  induction lines as [|l rest IH]; intro H; [reflexivity|].
  simpl in H. apply andb_true_iff in H as [Hl Hrest].
  destruct (plain_regular l Hl) as (Hh & Hb & Hi).
  rewrite (formatLines_regular false l rest Hh Hb), Hi, (IH Hrest).
  destruct rest as [|next rest].
  - simpl. apply app_nil_r.
  - simpl in Hrest. apply andb_true_iff in Hrest as [Hn _].
    rewrite (lineBreak_plain l next Hl Hn). reflexivity.
Qed.

Lemma joined_not_special (sep : str) (lines : list str) :
  existsb isSpecial sep = false ->
  forallb isPlainLine lines = true ->
  existsb isSpecial (joinWith sep lines) = false.
Proof.
  intros Hsep. induction lines as [|l rest IH]; intro H; [reflexivity|].
  simpl in H. apply andb_true_iff in H as [Hl Hrest].
  apply plain_parts in Hl as (Hl & _).
  destruct rest as [|l2 rest]; [exact Hl|].
  change (joinWith sep (l :: l2 :: rest))
    with (l ++ sep ++ joinWith sep (l2 :: rest)).
  rewrite !existsb_app, Hl, Hsep, (IH Hrest). reflexivity.
Qed.

(** X6: for lines of plain prose (no [&], [<], [>], U+00A0 or line
    terminator in them, at most one asterisk and one underscore, blank
    or starting with no white space, [#] or bullet mark), joined by line
    feeds or by carriage return and line feed, the block formatter
    returns the lines as they are, joined by one break each; a single
    such line comes back unchanged. *)
Theorem plain_prose (lines : list str) (crlf : bool) :
  forallb isPlainLine lines = true ->
  formatMessage (joinWith (if crlf then [CR; LF] else [LF]) lines)
  = joinWith (lit "<br>") lines.
Proof.
  intro H. destruct lines as [|l rest]; [reflexivity|].
  rewrite formatMessage_lines.
  rewrite escapeHtml_plain
    by (apply joined_not_special; [destruct crlf; reflexivity|exact H]).
  unfold split. rewrite split_joined; [apply formatLines_plain, H|].
  apply forallb_forall. intros x Hx.
  rewrite forallb_forall in H. apply H in Hx.
  apply plain_parts in Hx as (_ & Hx & _). rewrite Hx. reflexivity.
Qed.

Lemma plain_prose_witness :
  formatMessage (lit "Hi there," ++ [CR; LF] ++ [CR; LF]
                 ++ lit "use 2 * daily.")
  = lit "Hi there,<br><br>use 2 * daily.".
Proof.
  apply (plain_prose [lit "Hi there,"; []; lit "use 2 * daily."] true).
  reflexivity.
Defined.

(** ** What [trim] leaves *)

Lemma dropSpaces_first (l : str) : firstNotSpace (dropSpaces l).
Proof.
  induction l as [|c l IH]; [intros c H; discriminate H|].
  simpl. destruct (isSpace c) eqn:E; [exact IH|].
  intros c' [= <-]. exact E.
Qed.

Lemma dropSpaces_split (l : str) :
  exists pre, l = pre ++ dropSpaces l /\ forallb isSpace pre = true.
Proof.
  induction l as [|c l (pre & IH1 & IH2)]; [exists []; auto|].
  simpl. destruct (isSpace c) eqn:E.
  - exists (c :: pre). simpl. rewrite E, IH2. split; [|reflexivity].
    f_equal. exact IH1.
  - exists []. auto.
Qed.

Lemma dropSpaces_fixed (l : str) : firstNotSpace l -> dropSpaces l = l.
Proof.
  destruct l as [|c l]; [reflexivity|]. intro H. simpl.
  rewrite (H c eq_refl). reflexivity.
Qed.

Lemma trim_last (s : str) : lastNotSpace (trim s).
Proof.
  unfold lastNotSpace, trim. rewrite rev_involutive.
  apply dropSpaces_first.
Qed.

Lemma trim_first (s : str) : firstNotSpace (trim s).
Proof.
  unfold trim.
  destruct (dropSpaces_split (rev (dropSpaces s))) as (pre & E & _).
  pose proof (dropSpaces_first s) as H1.
  apply (f_equal (@rev char)) in E. rewrite rev_involutive, rev_app_distr in E.
  destruct (rev (dropSpaces (rev (dropSpaces s)))) as [|c t];
    [intros c H; discriminate H|].
  intros c' [= <-]. apply H1. rewrite E. reflexivity.
Qed.

Lemma trim_fixed (s : str) :
  firstNotSpace s -> lastNotSpace s -> trim s = s.
Proof.
  intros H1 H2. unfold trim. rewrite (dropSpaces_fixed s H1).
  rewrite (dropSpaces_fixed (rev s) H2). apply rev_involutive.
Qed.

Lemma trim_trimmed (s : str) : trim s <> [] -> trimmedText (trim s).
Proof.
  intro H. split; [exact H|]. split; [apply trim_first|apply trim_last].
Qed.

Lemma last_not_space_tail (p r : str) :
  lastNotSpace (p ++ r) -> r <> [] -> forallb isSpace r = false.
Proof.
  intros H Hr. unfold lastNotSpace in H. rewrite rev_app_distr in H.
  destruct (rev r) as [|c t] eqn:E.
  - apply (f_equal (@rev char)) in E. rewrite rev_involutive in E.
    simpl in E. congruence.
  - specialize (H c eq_refl).
    apply not_true_iff_false. intro Hall.
    rewrite forallb_forall in Hall.
    assert (Hin : In c r) by (apply in_rev; rewrite E; left; reflexivity).
    apply Hall in Hin. congruence.
Qed.

(** ** The name command *)

Lemma startsWith_cons (p : char) (pre s : str) :
  startsWith (p :: pre) s = true ->
  exists s', s = p :: s' /\ startsWith pre s' = true.
Proof.
  destruct s as [|c s']; simpl; [discriminate|].
  rewrite andb_true_iff, N.eqb_eq. intros [-> H]. eauto.
Qed.

Lemma lower_is_space (c : char) :
  (if (65 <=? c)%N && (c <=? 90)%N then (c + 32)%N else c) = 32%N ->
  c = 32%N.
Proof.
  destruct ((65 <=? c)%N && (c <=? 90)%N) eqn:E; [|auto].
  apply andb_true_iff in E as [E _]. apply N.leb_le in E. lia.
Qed.

(** A trimmed text that is a name command has a sixth code unit that is
    a space and something behind it. *)
Lemma name_command_shape (text : str) :
  lastNotSpace text -> isNameCommand text = true ->
  exists p r, text = p ++ r /\ length p = 6 /\ r <> []
              /\ forallb isSpace r = false.
Proof.
  intros Hlast H. unfold isNameCommand, toLowerCase in H.
  change (lit "/name ") with [47; 110; 97; 109; 101; 32]%N in H.
  destruct text as [|c0 [|c1 [|c2 [|c3 [|c4 [|c5 r]]]]]];
    try (exfalso; revert H; clear; cbn [map startsWith];
         rewrite ?andb_false_r; discriminate).
  cbn [map] in H.
  do 5 (apply startsWith_cons in H as (s' & E & H);
        injection E as _ <-).
  apply startsWith_cons in H as (s' & E & _).
  injection E as E _. apply lower_is_space in E. subst c5.
  exists [c0; c1; c2; c3; c4; 32%N], r.
  split; [reflexivity|]. split; [reflexivity|].
  assert (Hr : r <> []).
  { intros ->. specialize (Hlast 32%N eq_refl). discriminate Hlast. }
  split; [exact Hr|].
  apply (last_not_space_tail [c0; c1; c2; c3; c4; 32%N] r Hlast Hr).
Qed.

Lemma name_command_name (value : str) :
  isNameCommand (trim value) = true ->
  isEmpty (trim value) = false
  /\ trimmedText (trim (skipn 6 (trim value))).
Proof.
  intro H.
  destruct (name_command_shape (trim value) (trim_last value) H)
    as (p & r & E & Hp & Hr & Hns).
  split.
  - rewrite E. destruct p; [discriminate Hp|reflexivity].
  - rewrite E.
    replace (skipn 6 (p ++ r)) with r
      by (rewrite <- Hp, skipn_app, skipn_all, Nat.sub_diag; reflexivity).
    apply trim_trimmed. apply isEmpty_false, trim_not_blank, Hns.
Qed.

Lemma name_command_submit (value : str) (answer : promptAnswer)
    (s : session) :
  isNameCommand (trim value) = true ->
  submitUser value answer s
  = (NameCommand,
     push (acknowledgment (trim (skipn 6 (trim value))))
       (setName (trim (skipn 6 (trim value))) s)).
Proof.
  intro H. destruct (name_command_name value H) as (Hne & Hname).
  assert (Hn : isEmpty (trim (skipn 6 (trim value))) = false)
    by (apply isEmpty_false, Hname).
  unfold submitUser. rewrite Hne, H, Hn. reflexivity.
Qed.

(** X7: a submission whose trimmed text starts with [/name ], in any
    letter case, always sets the name: what follows the sixth code unit,
    trimmed, is never empty, so the branch that does nothing is never
    taken.  The handler stores this name, appends the one
    acknowledgment that quotes it, keeps every other entry (the greeting
    too), sends no request and ignores the prompt and the network. *)
Theorem name_command_sets_name (value : str) (answer : promptAnswer)
    (net : fetchResult) (s : session) :
  isNameCommand (trim value) = true ->
  exists name,
    name = trim (skipn 6 (trim value))
    /\ trimmedText name
    /\ chatFormSubmit value answer net s
       = Returned (push (acknowledgment name) (setName name s))
    /\ chatHistory (sessionOf (chatFormSubmit value answer net s))
       = chatHistory s ++ [acknowledgment name]
    /\ userName (sessionOf (chatFormSubmit value answer net s)) = Some name
    /\ requestOf value answer s = None.
Proof.
  intro H. destruct (name_command_name value H) as (_ & Hname).
  exists (trim (skipn 6 (trim value))).
  split; [reflexivity|]. split; [exact Hname|].
  unfold chatFormSubmit, requestOf.
  rewrite (name_command_submit value answer s H). repeat split.
Qed.

Lemma name_command_sets_name_witness :
  userName (sessionOf (chatFormSubmit (lit "  /Name  Ann Lee ") Blocked
                         (Rejected (lit "offline")) initialSession))
  = Some (lit "Ann Lee").
Proof.
  destruct (name_command_sets_name (lit "  /Name  Ann Lee ") Blocked
              (Rejected (lit "offline")) initialSession eq_refl)
    as (name & -> & _ & _ & _ & H & _).
  exact H.
Defined.

(** ** The name question *)

Lemma nameSettled_same (s s' : session) :
  userName s' = userName s -> hasAskedName s' = hasAskedName s ->
  nameSettled s' = nameSettled s.
Proof. unfold nameSettled, noName. intros -> ->. reflexivity. Qed.

Lemma nameSettled_callOpenAI (net : fetchResult) (s : session) :
  nameSettled (sessionOf (callOpenAI net s)) = nameSettled s.
Proof. rewrite callOpenAI_returns. reflexivity. Qed.

Lemma askName_settles (answer : promptAnswer) (s : session) :
  nameSettled (askName answer s) = true.
Proof.
  unfold askName. destruct (noName s && negb (hasAskedName s)) eqn:E.
  - unfold nameSettled. simpl. rewrite andb_false_r. reflexivity.
  - unfold nameSettled. rewrite E. reflexivity.
Qed.

Lemma askName_settled (answer : promptAnswer) (s : session) :
  nameSettled s = true -> askName answer s = s.
Proof.
  unfold nameSettled, askName. intro H. apply negb_true_iff in H.
  rewrite H. reflexivity.
Qed.

Lemma submit_settles value answer net s :
  trim value <> [] ->
  nameSettled (sessionOf (chatFormSubmit value answer net s)) = true.
Proof.
  intro Hne. destruct (isNameCommand (trim value)) eqn:Hc.
  - destruct (name_command_name value Hc) as (_ & Hn & _).
    unfold chatFormSubmit. rewrite (name_command_submit value answer s Hc).
    unfold nameSettled, noName.
    cbn [sessionOf push setName userName hasAskedName].
    apply isEmpty_false in Hn. rewrite Hn. reflexivity.
  - rewrite (chatFormSubmit_message value answer net s Hne Hc).
    rewrite nameSettled_callOpenAI.
    apply (eq_trans (y := nameSettled (askName answer s)));
      [reflexivity|apply askName_settles].
Qed.

Lemma handle_keeps_settled (s : session) (e : event) :
  nameSettled s = true -> nameSettled (handle s e) = true.
Proof.
  intro H. unfold handle.
  destruct (trim (typed e)) as [|c t] eqn:E.
  - unfold chatFormSubmit.
    rewrite (submitUser_empty (typed e) (promptGives e) s E). exact H.
  - apply submit_settles. rewrite E. discriminate.
Qed.

Lemma runEvents_keeps_settled (es : list event) (s : session) :
  nameSettled s = true -> nameSettled (runEvents s es) = true.
Proof.
  revert s. induction es as [|e es IH]; intros s H; [exact H|].
  simpl. apply IH, handle_keeps_settled, H.
Qed.

Lemma settled_ignores_prompt value (a1 a2 : promptAnswer) net s :
  nameSettled s = true ->
  chatFormSubmit value a1 net s = chatFormSubmit value a2 net s.
Proof.
  intro H. unfold chatFormSubmit, submitUser.
  rewrite (askName_settled a1 s H), (askName_settled a2 s H). reflexivity.
Qed.

(** X8: the name is asked for at most once.  At the start the question
    is open; after any submission with a text that is not blank it is
    settled (a name is stored, or the prompt was shown), it stays
    settled through every later event, and once it is settled the
    handler does the same whatever the prompt would answer. *)
Theorem name_asked_once :
  nameSettled initialSession = false
  /\ (forall value answer net s,
        trim value <> [] ->
        nameSettled (sessionOf (chatFormSubmit value answer net s)) = true)
  /\ (forall es s,
        nameSettled s = true -> nameSettled (runEvents s es) = true)
  /\ (forall value a1 a2 net s,
        nameSettled s = true ->
        chatFormSubmit value a1 net s = chatFormSubmit value a2 net s).
Proof.
  split; [reflexivity|]. split; [exact submit_settles|].
  split; [exact runEvents_keeps_settled|exact settled_ignores_prompt].
Qed.

Lemma name_asked_once_witness :
  chatFormSubmit (lit "and for hair?") (Typed (lit "Zoe")) (Success None)
    (sessionOf (chatFormSubmit (lit "hello") Dismissed (Success None)
                  initialSession))
  = chatFormSubmit (lit "and for hair?") Blocked (Success None)
      (sessionOf (chatFormSubmit (lit "hello") Dismissed (Success None)
                    initialSession)).
Proof.
  apply (proj2 (proj2 (proj2 name_asked_once))).
  apply (proj1 (proj2 name_asked_once)). discriminate.
Defined.

(** ** What the transcript holds *)

Lemma in_filter_history (g : entry -> bool) (s : session) (m : entry) :
  In m (chatHistory (filterHistory g s)) -> In m (chatHistory s).
Proof. simpl. intro H. apply filter_In in H. tauto. Qed.

Lemma in_push (e m : entry) (s : session) :
  In m (chatHistory (push e s)) -> In m (chatHistory s) \/ m = e.
Proof.
  rewrite push_history. intro H. apply in_app_or in H as [H|[H|[]]]; auto.
Qed.

(** The entries after a message: those kept of the session after the
    name question, the user's entry, the reply. *)
Lemma in_after_message value answer net s m :
  trim value <> [] -> isNameCommand (trim value) = false ->
  In m (chatHistory (sessionOf (chatFormSubmit value answer net s))) ->
  In m (chatHistory (askName answer s))
  \/ m = userEntry (trim value)
  \/ m = assistantEntry (replyContent net).
Proof.
  intros Hne Hc. rewrite (chatFormSubmit_message value answer net s Hne Hc).
  rewrite callOpenAI_returns. cbn [sessionOf]. intro H.
  apply in_push in H as [H|H]; [|auto].
  pose proof H as Hkept. apply in_filter_history in H.
  apply in_push in H as [H|H].
  - apply in_push in H as [H|H]; [|auto].
    apply in_filter_history in H. auto.
  - subst m. exfalso. simpl in Hkept.
    apply filter_In in Hkept as [_ Hkept]. discriminate Hkept.
Qed.

Lemma tidy_push_assistant (c : str) (s : session) :
  tidy s -> tidy (push (assistantEntry c) s).
Proof.
  intros [H1 H2]. split; [|exact H2].
  intros m Hm Hu. apply in_push in Hm as [Hm| ->]; [auto|discriminate Hu].
Qed.

Lemma tidy_filter (g : entry -> bool) (s : session) :
  tidy s -> tidy (filterHistory g s).
Proof.
  intros [H1 H2]. split; [|exact H2].
  intros m Hm. apply H1. apply (in_filter_history g s m Hm).
Qed.

Lemma tidy_setName (n : str) (s : session) :
  trimmedText n -> tidy s -> tidy (setName n s).
Proof.
  intros Hn [H1 H2]. split; [exact H1|].
  intros n' [= <-]. exact Hn.
Qed.

Lemma tidy_askName (answer : promptAnswer) (s : session) :
  tidy s -> tidy (askName answer s).
Proof.
  intro H. unfold askName.
  destruct (noName s && negb (hasAskedName s)); [|exact H].
  assert (Hasked : forall x, tidy x -> tidy (setAsked x))
    by (intros x Hx; exact Hx).
  apply Hasked. destruct answer as [v| |]; try exact H.
  destruct (negb (isEmpty v) && negb (isEmpty (trim v))) eqn:E; [|exact H].
  apply andb_true_iff in E as [_ E]. apply negb_true_iff in E.
  apply (tidy_push_assistant _ (setName (trim v) s)).
  apply tidy_setName; [|exact H].
  apply trim_trimmed, isEmpty_false, E.
Qed.

Lemma tidy_handle (s : session) (e : event) : tidy s -> tidy (handle s e).
Proof.
  intro H. unfold handle.
  destruct (trim (typed e)) as [|c t] eqn:E.
  - unfold chatFormSubmit.
    rewrite (submitUser_empty (typed e) (promptGives e) s E). exact H.
  - assert (Hne : trim (typed e) <> []) by (rewrite E; discriminate).
    clear E. destruct (isNameCommand (trim (typed e))) eqn:Hc.
    + unfold chatFormSubmit.
      rewrite (name_command_submit (typed e) (promptGives e) s Hc).
      cbn [sessionOf].
      apply (tidy_push_assistant _ (setName _ s)).
      apply tidy_setName; [|exact H].
      apply (name_command_name (typed e) Hc).
    + rewrite (chatFormSubmit_message _ (promptGives e) (networkGives e) s
                 Hne Hc).
      rewrite callOpenAI_returns. cbn [sessionOf].
      apply tidy_push_assistant, tidy_filter.
      apply (tidy_push_assistant placeholderText).
      pose proof (tidy_filter (fun m => negb (isSeedGreeting m)) _
                    (tidy_askName (promptGives e) s H)) as [H1 H2].
      split; [|exact H2].
      intros m Hm Hu. apply in_push in Hm as [Hm| ->]; [auto|].
      apply trim_trimmed, Hne.
Qed.

Lemma tidy_runEvents (es : list event) (s : session) :
  tidy s -> tidy (runEvents s es).
Proof.
  revert s. induction es as [|e es IH]; intros s H; [exact H|].
  simpl. apply IH, tidy_handle, H.
Qed.

Lemma tidy_initial : tidy initialSession.
Proof.
  split.
  - intros m [<- | []] Hu. discriminate Hu.
  - discriminate.
Qed.

(** X9: whatever the user submits and whatever the prompt and the
    network answer, every user entry of the transcript holds a text that
    is not empty and has no white space at either end (trimming it again
    changes nothing), and so does the stored name once there is one. *)
Theorem stored_texts_are_trimmed (es : list event) :
  (forall m,
      In m (chatHistory (runEvents initialSession es)) ->
      role m = user ->
      content m <> [] /\ trim (content m) = content m)
  /\ (forall n,
        userName (runEvents initialSession es) = Some n ->
        n <> [] /\ trim n = n).
Proof.
  destruct (tidy_runEvents es initialSession tidy_initial) as [H1 H2].
  split.
  - intros m Hm Hu.
    destruct (H1 m Hm) as (Hne & Hf & Hl); [unfold isUser; rewrite Hu; reflexivity|].
    split; [exact Hne|apply trim_fixed; assumption].
  - intros n Hn. destruct (H2 n Hn) as (Hne & Hf & Hl).
    split; [exact Hne|apply trim_fixed; assumption].
Qed.

Lemma stored_texts_are_trimmed_witness :
  trim (lit "which serum?") = lit "which serum?".
Proof.
  apply (proj1 (stored_texts_are_trimmed
                  [{| typed := lit "  which serum?  ";
                      promptGives := Typed (lit " Ann ");
                      networkGives := Success None |}])
           (userEntry (lit "which serum?"))).
  - vm_compute. tauto.
  - reflexivity.
Defined.

(** ** The greeting and the first message *)

Lemma user_or_assistant (m : entry) : isAssistant m = negb (isUser m).
Proof. unfold isAssistant, isUser. destruct (role m); reflexivity. Qed.

Lemma no_user_all_assistant (h : list entry) :
  existsb isUser h = false <-> forallb isAssistant h = true.
Proof.
  induction h as [|m h IH]; simpl; [tauto|].
  rewrite orb_false_iff, andb_true_iff, IH, user_or_assistant,
    negb_true_iff. tauto.
Qed.

Lemma history_after_message value answer net s :
  trim value <> [] -> isNameCommand (trim value) = false ->
  chatHistory (sessionOf (chatFormSubmit value answer net s))
  = filter (fun m => negb (isPlaceholder m))
      (filter (fun m => negb (isSeedGreeting m))
         (chatHistory (askName answer s)))
    ++ [userEntry (trim value); assistantEntry (replyContent net)].
Proof.
  intros Hne Hc. rewrite (chatFormSubmit_message value answer net s Hne Hc).
  rewrite callOpenAI_returns. cbn [sessionOf].
  rewrite push_history, removeTransient_appendPlaceholder, push_history.
  rewrite filter_app. cbn [filter]. rewrite <- app_assoc. reflexivity.
Qed.

Lemma greetingOnTop_no_user (s : session) :
  greetingOnTop s ->
  existsb isUser (chatHistory s) = false /\ hasSeedGreeting s = true.
Proof.
  intros (rest & E & Ha & _). unfold hasSeedGreeting. rewrite E.
  split; [|reflexivity]. simpl. apply no_user_all_assistant, Ha.
Qed.

Lemma shape_handle (s : session) (e : event) :
  greetingOnTop s \/ greetingGone s ->
  greetingOnTop (handle s e) \/ greetingGone (handle s e).
Proof.
  intro H. unfold handle.
  destruct (trim (typed e)) as [|c t] eqn:E.
  - unfold chatFormSubmit.
    rewrite (submitUser_empty (typed e) (promptGives e) s E). exact H.
  - assert (Hne : trim (typed e) <> []) by (rewrite E; discriminate).
    clear E. destruct (isNameCommand (trim (typed e))) eqn:Hc.
    + unfold chatFormSubmit.
      rewrite (name_command_submit (typed e) (promptGives e) s Hc).
      cbn [sessionOf]. destruct H as [(rest & E & Ha & Hs)|[Hs Hu]].
      * left. exists (rest ++ [acknowledgment
                                 (trim (skipn 6 (trim (typed e))))]).
        rewrite push_history. cbn [setName chatHistory]. rewrite E.
        split; [reflexivity|].
        rewrite forallb_app, existsb_app, Ha, Hs. split; reflexivity.
      * right. split.
        -- rewrite hasSeed_push by reflexivity. exact Hs.
        -- rewrite push_history, existsb_app. cbn [setName chatHistory].
           rewrite Hu. reflexivity.
    + right. split.
      * apply message_evicts_seed; assumption.
      * rewrite history_after_message by assumption.
        rewrite existsb_app. simpl. apply orb_true_r.
Qed.

Lemma shape_runEvents (es : list event) (s : session) :
  greetingOnTop s \/ greetingGone s ->
  greetingOnTop (runEvents s es) \/ greetingGone (runEvents s es).
Proof.
  revert s. induction es as [|e es IH]; intros s H; [exact H|].
  simpl. apply IH, shape_handle, H.
Qed.

Lemma shape_initial : greetingOnTop initialSession.
Proof. exists []. repeat split. Qed.

(** X10: in every session the widget reaches, the transcript either
    starts with the one seeded greeting, followed by assistant entries
    only, none of them flagged, or it holds no flagged entry and at
    least one user entry: the greeting is there exactly until the first
    message, always first and never twice. *)
Theorem greeting_until_first_message (es : list event) :
  (existsb isUser (chatHistory (runEvents initialSession es)) = false ->
   exists rest,
     chatHistory (runEvents initialSession es) = greeting :: rest
     /\ forallb isAssistant rest = true
     /\ existsb isSeedGreeting rest = false)
  /\ (existsb isUser (chatHistory (runEvents initialSession es)) = true ->
      hasSeedGreeting (runEvents initialSession es) = false).
Proof.
  destruct (shape_runEvents es initialSession (or_introl shape_initial))
    as [H|[Hs Hu]].
  - split; [intros _; exact H|].
    apply greetingOnTop_no_user in H as [H _]. rewrite H. discriminate.
  - split; [rewrite Hu; discriminate|intros _; exact Hs].
Qed.

Lemma greeting_until_first_message_witness :
  hasSeedGreeting
    (runEvents initialSession
       [{| typed := lit "/name Ann"; promptGives := Dismissed;
           networkGives := Success None |};
        {| typed := lit "hi"; promptGives := Dismissed;
           networkGives := Failure 500 (lit "down") |}])
  = false.
Proof.
  apply (proj2 (greeting_until_first_message _)). reflexivity.
Defined.

(** ** Labels *)

Lemma render_body (u : bool) (f : option nat) (h : list entry) :
  forall idx,
    map body (renderFrom u f idx h)
    = map (fun m => formatMessage (content m)) h.
Proof.
  induction h as [|m h IH]; intro idx; [reflexivity|].
  simpl. f_equal. apply IH.
Qed.

Lemma render_meta_with_user (f : option nat) (h : list entry) :
  forall idx,
    map meta (renderFrom true f idx h)
    = map (fun m => Some (if isUser m then lit "You" else lit "Advisor")) h.
Proof.
  induction h as [|m h IH]; intro idx; [reflexivity|].
  cbn [renderFrom map]. rewrite IH. f_equal.
  unfold renderEntry. cbn [meta negb]. rewrite andb_false_r. reflexivity.
Qed.

Lemma render_meta_later (j : nat) (h : list entry) :
  forallb isAssistant h = true ->
  forall idx, j < idx ->
    map meta (renderFrom false (Some j) idx h)
    = map (fun _ => Some (lit "Advisor")) h.
Proof.
  induction h as [|m h IH]; intros Ha idx Hj; [reflexivity|].
  simpl in Ha. apply andb_true_iff in Ha as [Hm Ha].
  cbn [renderFrom map]. rewrite (IH Ha (S idx)) by lia. f_equal.
  unfold renderEntry. cbn [meta index_is].
  assert (Nat.eqb idx j = false) as -> by (apply Nat.eqb_neq; lia).
  rewrite andb_false_r. cbn [andb].
  rewrite user_or_assistant in Hm. apply negb_true_iff in Hm.
  rewrite Hm. reflexivity.
Qed.

Lemma render_meta_no_user (s : session) :
  existsb isUser (chatHistory s) = false ->
  map meta (renderChat s)
  = match chatHistory s with
    | [] => []
    | _ :: rest => None :: map (fun _ => Some (lit "Advisor")) rest
    end.
Proof.
  intro Hu. unfold renderChat. rewrite Hu.
  apply no_user_all_assistant in Hu.
  destruct (chatHistory s) as [|m rest]; [reflexivity|].
  simpl in Hu. apply andb_true_iff in Hu as [Hm Ha].
  cbn [findIndexFrom]. rewrite Hm. cbn [renderFrom map].
  rewrite (render_meta_later 0 rest Ha 1) by lia. f_equal.
  unfold renderEntry. cbn [meta index_is Nat.eqb negb].
  rewrite Hm. reflexivity.
Qed.

Lemma unlabelled_by_meta (bs : list block) :
  length (filter unlabelled bs)
  = length (filter (fun o : option str =>
                      match o with None => true | Some _ => false end)
              (map meta bs)).
Proof.
  induction bs as [|b bs IH]; [reflexivity|].
  simpl. unfold unlabelled at 1. destruct (meta b); simpl; rewrite IH;
    reflexivity.
Qed.

Lemma filter_none_of_some (A : Type) (g : A -> str) (l : list A) :
  filter (fun o : option str =>
            match o with None => true | Some _ => false end)
    (map (fun x => Some (g x)) l) = [].
Proof. induction l as [|x l IH]; [reflexivity|]. simpl. exact IH. Qed.

(** X11: [renderChat] gives one block per entry, in order, whose body is
    the formatted content.  Once the transcript holds a user entry every
    block has its label, [You] for user entries and [Advisor] for the
    others; while it holds none, the first block has no label and all
    later ones are labelled [Advisor]; so at most one block is ever
    without label. *)
Theorem renderChat_labels (s : session) :
  map body (renderChat s)
  = map (fun m => formatMessage (content m)) (chatHistory s)
  /\ (existsb isUser (chatHistory s) = true ->
      map meta (renderChat s)
      = map (fun m => Some (if isUser m then lit "You" else lit "Advisor"))
          (chatHistory s))
  /\ (existsb isUser (chatHistory s) = false ->
      map meta (renderChat s)
      = match chatHistory s with
        | [] => []
        | _ :: rest => None :: map (fun _ => Some (lit "Advisor")) rest
        end)
  /\ length (filter unlabelled (renderChat s)) <= 1.
Proof.
  split; [apply render_body|].
  assert (Hu : existsb isUser (chatHistory s) = true ->
               map meta (renderChat s)
               = map (fun m => Some (if isUser m then lit "You"
                                     else lit "Advisor")) (chatHistory s)).
  { intro Hu. unfold renderChat. rewrite Hu.
    apply render_meta_with_user. }
  split; [exact Hu|]. split; [apply render_meta_no_user|].
  rewrite unlabelled_by_meta.
  destruct (existsb isUser (chatHistory s)) eqn:E.
  - rewrite (Hu eq_refl), filter_none_of_some. simpl. lia.
  - rewrite (render_meta_no_user s E).
    destruct (chatHistory s) as [|m rest]; [simpl; lia|].
    cbn [filter]. rewrite (filter_none_of_some _ (fun _ => lit "Advisor")).
    simpl. lia.
Qed.

Lemma renderChat_labels_witness :
  map meta (renderChat initialSession) = [None]
  /\ map meta (renderChat
                 (sessionOf (chatFormSubmit (lit "hi") Dismissed
                               (Success (Some (lit "hello")))
                               initialSession)))
     = [Some (lit "You"); Some (lit "Advisor")].
Proof.
  split.
  - apply (proj1 (proj2 (proj2 (renderChat_labels initialSession)))).
    reflexivity.
  - exact (proj1 (proj2 (renderChat_labels
                            (sessionOf (chatFormSubmit (lit "hi") Dismissed
                                          (Success (Some (lit "hello")))
                                          initialSession))))
             eq_refl).
Defined.

Lemma filter_unlabelled_nil (bs : list block) :
  filter (fun o : option str =>
            match o with None => true | Some _ => false end)
    (map meta bs) = [] ->
  filter unlabelled bs = [].
Proof.
  intro H. apply length_zero_iff_nil. rewrite unlabelled_by_meta, H.
  reflexivity.
Qed.

(** X12: in every session the widget reaches, the only block shown
    without a label is the block of the seeded greeting, and it is shown
    so exactly while the transcript holds no user entry; every reply,
    acknowledgment and error is labelled. *)
Theorem only_the_greeting_is_unlabelled (es : list event) :
  filter unlabelled (renderChat (runEvents initialSession es))
  = if existsb isUser (chatHistory (runEvents initialSession es))
    then [] else [greetingBlock].
Proof.
  destruct (existsb isUser (chatHistory (runEvents initialSession es)))
    eqn:Hu.
  - apply filter_unlabelled_nil. unfold renderChat. rewrite Hu.
    rewrite render_meta_with_user. apply filter_none_of_some.
  - destruct (shape_runEvents es initialSession (or_introl shape_initial))
      as [(rest & E & Ha & _)|[_ Hu']]; [|congruence].
    unfold renderChat. rewrite Hu, E.
    cbn [findIndexFrom isAssistant greeting role role_eqb renderFrom].
    cbn [filter]. change (unlabelled (renderEntry false (Some 0)
                                       greeting 0)) with true.
    cbv iota. f_equal.
    apply filter_unlabelled_nil.
    rewrite (render_meta_later 0 rest Ha 1) by lia.
    apply (filter_none_of_some _ (fun _ => lit "Advisor")).
Qed.

(** ** The request *)

Lemma filter_twice (f g : entry -> bool) (h : list entry) :
  filter g (filter f h) = filter (fun m => f m && g m) h.
Proof.
  induction h as [|m h IH]; [reflexivity|].
  simpl. destruct (f m); simpl; [|exact IH].
  destruct (g m); rewrite IH; reflexivity.
Qed.

Lemma requestOf_message value answer s :
  trim value <> [] -> isNameCommand (trim value) = false ->
  requestOf value answer s
  = Some ([systemMessage SYSTEM_PROMPT]
          ++ profileMessages (askName answer s)
          ++ map toMessage
               (filter (fun m => negb (isSeedGreeting m)
                                 && negb (isPlaceholder m))
                  (chatHistory (askName answer s)))
          ++ [{| msgRole := lit "user"; msgContent := trim value |}]).
Proof.
  intros Hne Hc. unfold requestOf.
  rewrite (submitUser_message value answer s Hne Hc). cbv zeta.
  unfold messages. rewrite removeTransient_appendPlaceholder, push_history.
  rewrite filter_app. cbn [filter].
  change (chatHistory (removeSeedGreeting ?x))
    with (filter (fun m => negb (isSeedGreeting m)) (chatHistory x)).
  rewrite filter_twice, map_app. reflexivity.
Qed.

(** X13: a submission sends a request exactly when its trimmed text is
    not empty and is no name command.  The request then starts with the
    system prompt, goes on with the note about the name when one is
    known by then (the name given to the prompt of this very submission
    included), then holds, in order, the entries that are neither the
    seeded greeting nor an assistant entry with the text of the typing
    indicator, each reduced to role and content, and ends with the
    user's trimmed text; the first message of a session is thus sent
    without the greeting. *)
Theorem request_sent (value : str) (answer : promptAnswer) (s : session) :
  (trim value = [] -> requestOf value answer s = None)
  /\ (isNameCommand (trim value) = true -> requestOf value answer s = None)
  /\ (trim value <> [] -> isNameCommand (trim value) = false ->
      requestOf value answer s
      = Some ([systemMessage SYSTEM_PROMPT]
              ++ profileMessages (askName answer s)
              ++ map toMessage
                   (filter (fun m => negb (isSeedGreeting m)
                                     && negb (isPlaceholder m))
                      (chatHistory (askName answer s)))
              ++ [{| msgRole := lit "user"; msgContent := trim value |}]))
  /\ requestOf (lit "hello") Dismissed initialSession
     = Some [systemMessage SYSTEM_PROMPT;
             {| msgRole := lit "user"; msgContent := lit "hello" |}]
  /\ requestOf (lit "hello") (Typed (lit " Ann ")) initialSession
     = Some [systemMessage SYSTEM_PROMPT;
             systemMessage (profileNote (lit "Ann"));
             toMessage (acknowledgment (lit "Ann"));
             {| msgRole := lit "user"; msgContent := lit "hello" |}].
Proof.
  split; [|split; [|split; [|split]]].
  - intro H. unfold requestOf.
    rewrite (submitUser_empty value answer s H). reflexivity.
  - intro H. unfold requestOf.
    rewrite (name_command_submit value answer s H). reflexivity.
  - apply requestOf_message.
  - reflexivity.
  - reflexivity.
Qed.

Lemma request_sent_witness :
  requestOf (lit " ") Blocked initialSession = None
  /\ requestOf (lit "/name Ann") Blocked initialSession = None
  /\ requestOf (lit "more")  Blocked sessionAfterThinkingReply
     = Some [systemMessage SYSTEM_PROMPT;
             {| msgRole := lit "user"; msgContent := lit "hi" |};
             {| msgRole := lit "user"; msgContent := lit "more" |}].
Proof.
  split; [|split].
  - apply (proj1 (request_sent (lit " ") Blocked initialSession)).
    reflexivity.
  - apply (proj1 (proj2 (request_sent (lit "/name Ann") Blocked
                           initialSession))).
    reflexivity.
  - exact (proj1 (proj2 (proj2 (request_sent (lit "more") Blocked
                                  sessionAfterThinkingReply)))
             ltac:(discriminate) eq_refl).
Defined.

(** ** A message and its answer *)

Lemma askName_keeps (answer : promptAnswer) (s : session) (m : entry) :
  In m (chatHistory s) -> In m (chatHistory (askName answer s)).
Proof.
  intro H. unfold askName.
  destruct (noName s && negb (hasAskedName s)); [|exact H].
  cbn [setAsked chatHistory].
  destruct answer as [v| |]; try exact H.
  destruct (negb (isEmpty v) && negb (isEmpty (trim v))); [|exact H].
  rewrite push_history. apply in_or_app. left. exact H.
Qed.

(** X14: after a submission that is a message, the transcript ends with
    the user's trimmed text and, right behind it, exactly one assistant
    entry, whatever the network did: the reply, the fixed text for a
    reply field missing from a body other than [null], or an error
    description (for a thrown error, a status that is no success, and
    the body [null], on which reading the field throws).  Before these
    two stand the
    earlier entries in their order, without the seeded greeting and
    without any assistant entry that has the text of the typing
    indicator; every other earlier entry is kept. *)
Theorem message_gets_one_answer (value : str) (answer : promptAnswer)
    (net : fetchResult) (s : session) :
  trim value <> [] -> isNameCommand (trim value) = false ->
  chatHistory (sessionOf (chatFormSubmit value answer net s))
  = filter (fun m => negb (isPlaceholder m))
      (filter (fun m => negb (isSeedGreeting m))
         (chatHistory (askName answer s)))
    ++ [userEntry (trim value); assistantEntry (replyContent net)]
  /\ (forall m,
        In m (chatHistory s) ->
        isSeedGreeting m = false -> isPlaceholder m = false ->
        In m (chatHistory (sessionOf (chatFormSubmit value answer net s)))).
Proof.
  intros Hne Hc.
  pose proof (history_after_message value answer net s Hne Hc) as E.
  split; [exact E|].
  intros m Hm Hs Hp. rewrite E. apply in_or_app. left.
  apply filter_In. split; [|rewrite Hp; reflexivity].
  apply filter_In. split; [|rewrite Hs; reflexivity].
  apply askName_keeps, Hm.
Qed.

Lemma message_gets_one_answer_witness :
  chatHistory (sessionOf (chatFormSubmit (lit " dry skin? ") Dismissed
                            (Failure 429 (lit "slow down"))
                            initialSession))
  = [userEntry (lit "dry skin?");
     assistantEntry (lit "Error: Worker proxy error: 429 slow down")].
Proof.
  exact (proj1 (message_gets_one_answer (lit " dry skin? ") Dismissed
                  (Failure 429 (lit "slow down")) initialSession
                  ltac:(discriminate) eq_refl)).
Defined.

(** ** Every tag of the output is the formatter's own *)

Lemma tagged_no_lt (s : str) : ~ In LT s -> tagged s.
Proof.
  intros H pre post E. exfalso. apply H. rewrite E.
  apply in_or_app. right. left. reflexivity.
Qed.

Lemma tagged_suffix (a b : str) : tagged (a ++ b) -> tagged b.
Proof.
  intros H pre post E. apply (H (a ++ pre) post).
  rewrite E, app_assoc. reflexivity.
Qed.

Lemma tagged_app (a b : str) : tagged a -> tagged b -> tagged (a ++ b).
Proof.
  intros Ha Hb pre post E.
  apply app_eq_app in E as [l [[E1 E2]|[E1 E2]]].
  - destruct l as [|x l].
    + simpl in E2. apply (Hb [] post). symmetry. exact E2.
    + simpl in E2. injection E2 as <- E2.
      destruct (Ha pre l) as (t & post' & Ht & E3).
      * rewrite E1. reflexivity.
      * exists t, (post' ++ b). split; [exact Ht|].
        rewrite E2, app_assoc, <- E3. reflexivity.
  - apply (Hb l post). exact E2.
Qed.

Lemma tagged_cons (c : char) (s : str) :
  c <> LT -> tagged s -> tagged (c :: s).
Proof.
  intros Hc Hs. apply (tagged_app [c] s); [|exact Hs].
  apply tagged_no_lt. intros [H|[]]. congruence.
Qed.

(** Each tag is a [<] and a body without [<], asterisk or underscore. *)
Lemma tag_shape (t : str) :
  In t formatterTags ->
  exists body,
    t = LT :: body /\ ~ In LT body /\ ~ In STAR t /\ ~ In UNDERSCORE t.
Proof.
  intro H. unfold formatterTags in H.
  repeat (destruct H as [<- | H];
          [eexists; split; [reflexivity|];
           vm_compute; intuition discriminate|]).
  destruct H.
Qed.

Lemma tagged_tag (t : str) : In t formatterTags -> tagged t.
Proof.
  intros Ht pre post E.
  destruct (tag_shape t Ht) as (body & -> & Hb & _).
  destruct pre as [|x pre]; simpl in E.
  - exists (LT :: body), []. split; [exact Ht|].
    rewrite app_nil_r. symmetry. exact E.
  - injection E as _ E. exfalso. apply Hb. rewrite E.
    apply in_or_app. right. left. reflexivity.
Qed.

(** A text cut in front of a marker keeps its tags whole. *)
Lemma tagged_cut (m : char) (a b : str) :
  m = STAR \/ m = UNDERSCORE ->
  tagged (a ++ m :: b) -> tagged a.
Proof.
  intros Hm H pre post E.
  destruct (H pre (post ++ m :: b)) as (t & post' & Ht & E2).
  { rewrite E, <- app_assoc. reflexivity. }
  change (LT :: post ++ m :: b) with ((LT :: post) ++ m :: b) in E2.
  apply app_eq_app in E2 as [l [[E3 E4]|[E3 E4]]].
  - exists t, l. split; [exact Ht|]. exact E3.
  - destruct l as [|x l]; simpl in E4.
    + exists t, []. split; [exact Ht|]. rewrite app_nil_r.
      rewrite E3, app_nil_r. reflexivity.
    + injection E4 as <- _. exfalso.
      destruct (tag_shape t Ht) as (_ & _ & _ & Hs & Hu).
      assert (Hin : In m t)
        by (rewrite E3; apply in_or_app; right; left; reflexivity).
      destruct Hm as [-> | ->]; contradiction.
Qed.

Lemma replace_tagged (r : regex) (f : marks -> str) (m : char) :
  m = STAR \/ m = UNDERSCORE ->
  (forall prev s ms,
      (forall c, hd_error s = Some c -> chr_is m c = false) ->
      run r prev s ms = None) ->
  (forall prev s ms rest,
      run r prev s [] = Some (ms, rest) -> tagged s ->
      (exists c mm, s = c :: mm ++ rest)
      /\ tagged (f ms) /\ tagged rest) ->
  forall n s prev,
    length s <= n -> tagged s -> tagged (replaceFrom r f prev s 0).
Proof.
  intros Hm H1 H2. induction n as [|n IH]; intros s prev Hlen Hs.
  - destruct s; [|simpl in Hlen; lia].
    simpl. rewrite H1 by (intros c E; discriminate E).
    apply tagged_no_lt. intros [].
  - destruct s as [|c s].
    { simpl. rewrite H1 by (intros c E; discriminate E).
      apply tagged_no_lt. intros []. }
    simpl in Hlen.
    destruct (run r prev (c :: s) []) as [[ms rest]|] eqn:R.
    + destruct (H2 prev (c :: s) ms rest R Hs)
        as ((c' & mm & E) & Hf & Hrest).
      injection E as <- ->.
      rewrite (replaceFrom_match r f prev c mm rest ms R).
      apply tagged_app; [exact Hf|]. apply IH; [|exact Hrest].
      rewrite length_app in Hlen. lia.
    + rewrite replaceFrom_cons, R.
      destruct (N.eq_dec c LT) as [->|Hc].
      * destruct (Hs [] s eq_refl) as (t & post' & Ht & E).
        destruct (tag_shape t Ht) as (body & -> & _ & Hst & Hu).
        injection E as ->.
        rewrite replaceFrom_copy.
        -- change (LT :: body ++ ?x) with ((LT :: body) ++ x).
           apply tagged_app; [apply tagged_tag, Ht|].
           apply IH; [rewrite length_app in Hlen; lia|].
           apply (tagged_suffix (LT :: body)). exact Hs.
        -- intros a1 a2 prev' E Hne. apply H1.
           apply (not_in_head m a2); [|exact Hne].
           intro Hin.
           assert (Hin' : In m (LT :: body))
             by (right; rewrite E; apply in_or_app; right; exact Hin).
           destruct Hm as [-> | ->]; contradiction.
      * apply tagged_cons; [exact Hc|]. apply IH; [lia|].
        apply (tagged_suffix [c]). exact Hs.
Qed.

Lemma replaceAll_bold_tagged (s : str) :
  tagged s -> tagged (replaceAll reBold strong s).
Proof.
  intro Hs. unfold replaceAll.
  apply (replace_tagged reBold strong STAR (or_introl eq_refl))
    with (n := length s); [| |lia|exact Hs].
  - intros. apply run_reBold_needs_head. assumption.
  - intros prev t ms rest R Ht.
    apply run_reBold in R as (x & -> & _ & _ & ->).
    split; [exists STAR, (STAR :: x ++ [STAR; STAR]); simpl;
            rewrite <- app_assoc; reflexivity|].
    assert (Hx : tagged (x ++ STAR :: STAR :: rest))
      by (apply (tagged_suffix [STAR; STAR]); exact Ht).
    split.
    + unfold strong. rewrite group_1_two_marks.
      apply tagged_app; [apply tagged_tag; vm_compute; tauto|].
      apply tagged_app; [|apply tagged_tag; vm_compute; tauto].
      apply (tagged_cut STAR x (STAR :: rest) (or_introl eq_refl) Hx).
    + apply (tagged_suffix (x ++ [STAR; STAR])).
      rewrite <- app_assoc. exact Hx.
Qed.

Lemma replaceAll_italic_tagged (m : char) (s : str) :
  m = STAR \/ m = UNDERSCORE ->
  tagged s -> tagged (replaceAll (reItalic m) em s).
Proof.
  intros Hm Hs. unfold replaceAll.
  apply (replace_tagged (reItalic m) em m Hm)
    with (n := length s); [| |lia|exact Hs].
  - intros. apply run_reItalic_needs_head. assumption.
  - intros prev t ms rest R Ht.
    apply run_reItalic in R as (_ & x & -> & _ & _ & _ & ->).
    split; [exists m, (x ++ [m]); rewrite <- app_assoc; reflexivity|].
    assert (Hx : tagged (x ++ m :: rest))
      by (apply (tagged_suffix [m]); exact Ht).
    split.
    + unfold em. rewrite group_1_two_marks.
      apply tagged_app; [apply tagged_tag; vm_compute; tauto|].
      apply tagged_app; [|apply tagged_tag; vm_compute; tauto].
      apply (tagged_cut m x rest Hm Hx).
    + apply (tagged_suffix (x ++ [m])). rewrite <- app_assoc. exact Hx.
Qed.

Lemma inline_tagged (s : str) :
  tagged s -> tagged (applyInlineFormatting s).
Proof.
  intro H. unfold applyInlineFormatting.
  apply (replaceAll_italic_tagged UNDERSCORE); [right; reflexivity|].
  apply (replaceAll_italic_tagged STAR); [left; reflexivity|].
  apply replaceAll_bold_tagged, H.
Qed.

Lemma step_Eol (k : matcher) prev s ms r :
  step Eol k prev s ms = Some r -> s = [] /\ k prev [] ms = Some r.
Proof. simpl. destruct s; [auto|discriminate]. Qed.

(** What a heading match captured. *)
Lemma search_heading_sound (line : str) (ms : marks) (rest : str) :
  search reHeading None line = Some (ms, rest) ->
  1 <= length (group 1 ms) <= 6
  /\ forall c, In c (group 2 ms) -> In c line.
Proof.
  unfold reHeading. rewrite search_anchored. cbn [run]. intro H.
  change (step Open ?k ?p ?s ?m) with (k p s (s :: m)) in H.
  change (step (Rep ?g ?lo ?hi ?p) ?k) with (rep g p k lo hi) in H.
  apply rep_sound_bound in H as (p1 & s1 & -> & _ & Hlo & Hhi & H).
  change (step Close ?k ?p ?s ?m) with (k p s (s :: m)) in H.
  change (step (Rep ?g ?lo ?hi ?p) ?k) with (rep g p k lo hi) in H.
  apply rep_sound in H as (p2 & s2 & -> & _ & _ & H).
  change (step Open ?k ?p ?s ?m) with (k p s (s :: m)) in H.
  change (step (Rep ?g ?lo ?hi ?p) ?k) with (rep g p k lo hi) in H.
  apply rep_sound in H as (p3 & s3 & -> & _ & _ & H).
  change (step Close ?k ?p ?s ?m) with (k p s (s :: m)) in H.
  apply step_Eol in H as [-> H]. injection H as <- <-.
  unfold group. cbn [rev app nth Nat.mul Nat.add Nat.sub].
  rewrite !between_app. split; [lia|].
  intros c Hc. apply in_or_app. right. apply in_or_app. right.
  apply in_or_app. left. exact Hc.
Qed.

(** What a bullet match captured. *)
Lemma search_bullet_sound (line : str) (ms : marks) (rest : str) :
  search reBullet None line = Some (ms, rest) ->
  forall c, In c (group 2 ms) -> In c line.
Proof.
  unfold reBullet. rewrite search_anchored. cbn [run]. intro H.
  change (step (Rep ?g ?lo ?hi ?p) ?k) with (rep g p k lo hi) in H.
  apply rep_sound in H as (p1 & s1 & -> & _ & _ & H).
  change (step Open ?k ?p ?s ?m) with (k p s (s :: m)) in H.
  apply step_Chr in H as (c0 & s1' & -> & _ & H).
  change (step Close ?k ?p ?s ?m) with (k p s (s :: m)) in H.
  change (step (Rep ?g ?lo ?hi ?p) ?k) with (rep g p k lo hi) in H.
  apply rep_sound in H as (p2 & s2 & -> & _ & _ & H).
  change (step Open ?k ?p ?s ?m) with (k p s (s :: m)) in H.
  change (step (Rep ?g ?lo ?hi ?p) ?k) with (rep g p k lo hi) in H.
  apply rep_sound in H as (p3 & s3 & -> & _ & _ & H).
  change (step Close ?k ?p ?s ?m) with (k p s (s :: m)) in H.
  apply step_Eol in H as [-> H]. injection H as <- <-.
  unfold group. cbn [rev app nth Nat.mul Nat.add Nat.sub].
  rewrite between_app.
  intros c Hc. apply in_or_app. right. right. apply in_or_app. right.
  apply in_or_app. left. exact Hc.
Qed.

Lemma heading_tags (k : nat) :
  1 <= k <= 6 ->
  In (lit "<h" ++ decimal (N.of_nat k) ++ lit ">") formatterTags
  /\ In (lit "</h" ++ decimal (N.of_nat k) ++ lit ">") formatterTags.
Proof.
  intro H.
  assert (k = 1 \/ k = 2 \/ k = 3 \/ k = 4 \/ k = 5 \/ k = 6) as
    [-> |[-> |[-> |[-> |[-> | ->]]]]] by lia;
    split; vm_compute; tauto.
Qed.

Lemma closeList_tagged (inList : bool) : tagged (closeList inList).
Proof.
  destruct inList; [apply tagged_tag; vm_compute; tauto|].
  apply tagged_no_lt. intros [].
Qed.

Lemma openList_tagged (inList : bool) : tagged (openList inList).
Proof.
  destruct inList; [apply tagged_no_lt; intros []|].
  apply tagged_tag. vm_compute. tauto.
Qed.

Lemma lineBreak_tagged (line nextLine : str) :
  tagged (lineBreak line nextLine).
Proof.
  unfold lineBreak.
  destruct (negb _ && negb _ && negb _ && negb _);
    [apply tagged_tag; vm_compute; tauto|].
  destruct (_ || _); [apply tagged_tag; vm_compute; tauto|].
  apply tagged_no_lt. intros [].
Qed.

Lemma formatLines_tagged (lines : list str) :
  (forall l, In l lines -> ~ In LT l) ->
  forall inList, tagged (formatLines inList lines).
Proof.
  induction lines as [|line rest IH]; intros Hl inList.
  - apply closeList_tagged.
  - assert (Hline : ~ In LT line) by (apply Hl; left; reflexivity).
    assert (Hrest : forall b, tagged (formatLines b rest))
      by (apply IH; intros l Hin; apply Hl; right; exact Hin).
    cbn [formatLines].
    destruct (search reHeading None line) as [[ms r]|] eqn:Eh.
    + destruct (search_heading_sound line ms r Eh) as (Hk & Hin).
      destruct (heading_tags _ Hk) as (Ho & Hc).
      cbv zeta.
      apply tagged_app; [apply closeList_tagged|].
      set (level := decimal (N.of_nat (length (group 1 ms)))) in *.
      replace (lit "<h" ++ level ++ lit ">"
               ++ applyInlineFormatting (group 2 ms)
               ++ lit "</h" ++ level ++ lit ">" ++ formatLines false rest)
        with ((lit "<h" ++ level ++ lit ">")
              ++ applyInlineFormatting (group 2 ms)
              ++ (lit "</h" ++ level ++ lit ">") ++ formatLines false rest)
        by (rewrite <- !app_assoc; reflexivity).
      apply tagged_app; [apply tagged_tag, Ho|].
      apply tagged_app.
      { apply inline_tagged, tagged_no_lt. intro H. apply Hline, Hin, H. }
      apply tagged_app; [apply tagged_tag, Hc|apply Hrest].
    + destruct (search reBullet None line) as [[ms r]|] eqn:Eb.
      * pose proof (search_bullet_sound line ms r Eb) as Hin.
        cbv zeta.
        apply tagged_app; [apply openList_tagged|].
        apply tagged_app; [apply tagged_tag; vm_compute; tauto|].
        apply tagged_app.
        { apply inline_tagged, tagged_no_lt. intro H.
          apply Hline, Hin, H. }
        apply tagged_app; [apply tagged_tag; vm_compute; tauto|].
        apply Hrest.
      * cbv zeta.
        apply tagged_app; [apply closeList_tagged|].
        apply tagged_app; [apply inline_tagged, tagged_no_lt, Hline|].
        apply tagged_app; [|apply Hrest].
        destruct rest; [apply tagged_no_lt; intros []|].
        apply lineBreak_tagged.
Qed.

Lemma addToPiece_chars (c : char) (pieces : list str) (l : str) (x : char) :
  In l (addToPiece c pieces) -> In x l ->
  x = c \/ exists l', In l' pieces /\ In x l'.
Proof.
  destruct pieces as [|p ps]; simpl.
  - intros [<-|[]] [<-|[]]. left. reflexivity.
  - intros [<-|H] Hx.
    + destruct Hx as [<-|Hx]; [left; reflexivity|].
      right. exists p. auto.
    + right. exists l. auto.
Qed.

(** The pieces of a split hold code units of the text only. *)
Lemma splitFrom_chars (r : regex) (s : str) :
  forall prev skip l x,
    In l (splitFrom r prev s skip) -> In x l -> In x s.
Proof.
  induction s as [|c s IH]; intros prev skip l x Hl Hx.
  - destruct Hl as [<-|[]]. exact Hx.
  - assert (Hadd : In l (addToPiece c (splitFrom r (Some c) s 0)) ->
                   In x (c :: s)).
    { intro H. destruct (addToPiece_chars _ _ _ _ H Hx) as [->|(l' & H1 & H2)].
      - left. reflexivity.
      - right. exact (IH _ _ _ _ H1 H2). }
    destruct skip as [|n].
    + rewrite splitFrom_cons in Hl.
      destruct (run r prev (c :: s) []) as [[ms rest]|]; [|auto].
      destruct (length (c :: s) - length rest); [auto|].
      destruct Hl as [<-|Hl]; [destruct Hx|].
      right. exact (IH _ _ _ _ Hl Hx).
    + right. exact (IH _ _ _ _ Hl Hx).
Qed.

(** The property tells markup apart: a text that opens an element of its
    own does not have it. *)
Example tagged_rejects_script : ~ tagged (lit "<script>").
Proof.
  intro H. destruct (H [] (lit "script>") eq_refl) as (t & post' & Hin & E).
  simpl in Hin.
  repeat (destruct Hin as [<-|Hin]; [cbv in E; discriminate E|]).
  destruct Hin.
Qed.

(** X15: whatever the text of an entry, every [<] of the markup that
    [formatMessage] writes for it starts one of the tags the formatter
    itself writes (strong, em, br, ul, li, h1 to h6, opening or closing):
    no [<] of the text reaches the markup, so the text cannot open an
    element of its own.  The bodies that [renderChat] gives to [innerHTML]
    are such markup, for every session. *)
Theorem formatMessage_writes_own_tags_only :
  (forall text, tagged (formatMessage text))
  /\ (forall s b, In b (renderChat s) -> tagged (body b)).
Proof.
  assert (H : forall text, tagged (formatMessage text)).
  { intro text. unfold formatMessage.
    destruct (isEmpty text); [apply tagged_no_lt; intros []|].
    cbv zeta. apply formatLines_tagged.
    intros l Hl Hx. unfold split in Hl.
    apply (proj1 (escapeHtml_no_angle text)).
    exact (splitFrom_chars _ _ _ _ _ _ Hl Hx). }
  split; [exact H|].
  intros s b Hb. apply (in_map body) in Hb.
  unfold renderChat in Hb. cbv zeta in Hb. rewrite render_body in Hb.
  apply in_map_iff in Hb as (m & <- & _). apply H.
Qed.

Lemma formatMessage_writes_own_tags_only_witness :
  formatMessage (lit "**<b>**") = lit "<strong>&lt;b&gt;</strong>"
  /\ tagged (formatMessage (lit "**<b>**"))
  /\ In greetingBlock (renderChat initialSession)
  /\ tagged (body greetingBlock).
Proof.
  split; [reflexivity|].
  split; [exact (proj1 formatMessage_writes_own_tags_only (lit "**<b>**"))|].
  split; [left; reflexivity|].
  exact (proj2 formatMessage_writes_own_tags_only initialSession
           greetingBlock (or_introl eq_refl)).
Defined.
